(** * External merge sort over a closable blocking queue

    A shallow embedding of [main.cpp] and [blocking_queue.hpp]:
    the queue [tp::UnboundedBlockingQueue], the chunk partitioning of
    [SortBatchFiles], the worker bodies [SorterRoutine] and [MergeRoutine],
    and the reduction loop of [MergeBatchFiles], followed by the properties
    the specification states about them. *)

From Stdlib Require Import ZArith Lia.
From stdpp Require Import base numbers list sorting gmap.
From AAC_tactics Require Import AAC.
From AAC_tactics Require Instances.
Import Instances.Lists.

Local Open Scope Z_scope.
Set Warnings "-clear-no-such-hyp".

(** Rearrangements of concatenated lists are settled modulo the
    associativity and commutativity of [++]. *)
#[local] Instance Permutation_lift {A : Type} :
  AAC_lift (@Permutation A) (@Permutation A) :=
  {| aac_lift_equivalence := _; aac_list_proper := _ |}.

(** Rearrangements: a cons is a one-element list in front. *)
Ltac rearrange :=
  repeat match goal with
         | |- context [?x :: ?l] =>
             lazymatch l with
             | [] => fail
             | _ => change (x :: l) with ([x] ++ l)
             end
         end;
  aac_reflexivity.

(** ** Machine integers

    [size_t] is the 64-bit unsigned type of the usual LP64 targets: its
    arithmetic wraps modulo [2^64].  [int] is the 32-bit signed type. *)

Definition size_t_modulus : Z := 2 ^ 64.
Definition to_size_t (x : Z) : Z := x mod size_t_modulus.
Definition sizeof_int : Z := 4.
Definition INT_MIN : Z := - 2 ^ 31.
Definition INT_MAX : Z := 2 ^ 31 - 1.
Definition is_size_t (x : Z) : Prop := 0 ≤ x < size_t_modulus.

(** [--id] on an [int].  Overflow of a signed decrement is undefined in
    C++; the usual targets wrap in two's complement, which is what is
    written out here.  The properties below that depend on the ids are
    stated for runs in which the decrement stays in range. *)
Definition int_wrap (x : Z) : Z := (x - INT_MIN) mod 2 ^ 32 + INT_MIN.
Definition int_pred (id : Z) : Z := int_wrap (id - 1).

(** ** [tp::UnboundedBlockingQueue<T>]

    Every member function runs under [mutex_], so each call is one atomic
    transition of the pair [(is_closed_, buffer_)].  The only place a call
    gives the mutex up is [buffer_empty_.wait] inside [Take]; a call that
    reaches it is reported as [Blocks]. *)
Module Queue.
Section Queue.
Context {T : Type}.

Record UnboundedBlockingQueue : Type := MkQueue {
  is_closed_ : bool;
  buffer_ : list T
}.

(** A freshly constructed queue: [is_closed_{false}], empty deque. *)
Definition new_queue : UnboundedBlockingQueue :=
  {| is_closed_ := false; buffer_ := [] |}.

Definition Put (value : T) (q : UnboundedBlockingQueue)
  : bool * UnboundedBlockingQueue :=
  if is_closed_ q then (false, q)
  else (true, {| is_closed_ := is_closed_ q;
                 buffer_ := buffer_ q ++ [value] |}).

(** The guard of the [while] loop around [buffer_empty_.wait]. *)
Definition must_wait (q : UnboundedBlockingQueue) : bool :=
  match buffer_ q with
  | [] => negb (is_closed_ q)
  | _ :: _ => false
  end.

Inductive TakeResult : Type :=
| Blocks
| Returns (result : option T) (q' : UnboundedBlockingQueue).

Definition Take (q : UnboundedBlockingQueue) : TakeResult :=
  if must_wait q then Blocks
  else match buffer_ q with
       | [] => Returns None q
       | front :: rest =>
           Returns (Some front)
                   {| is_closed_ := is_closed_ q; buffer_ := rest |}
       end.

Definition CloseImpl (clear : bool) (q : UnboundedBlockingQueue)
  : UnboundedBlockingQueue :=
  {| is_closed_ := true;
     buffer_ := if clear then [] else buffer_ q |}.

Definition Close : UnboundedBlockingQueue → UnboundedBlockingQueue :=
  CloseImpl false.
Definition Cancel : UnboundedBlockingQueue → UnboundedBlockingQueue :=
  CloseImpl true.

(** [n] successive calls of [Take] by one consumer, with the values they
    return; the consumer stops at the first call that blocks. *)
Fixpoint take_many (n : nat) (q : UnboundedBlockingQueue)
  : list (option T) * UnboundedBlockingQueue :=
  match n with
  | O => ([], q)
  | S n' =>
      match Take q with
      | Blocks => ([], q)
      | Returns r q' =>
          let '(rs, q'') := take_many n' q' in (r :: rs, q'')
      end
  end.

(** Successive calls of [Put], each with its return value. *)
Fixpoint put_many (vs : list T) (q : UnboundedBlockingQueue)
  : list bool * UnboundedBlockingQueue :=
  match vs with
  | [] => ([], q)
  | v :: vs' =>
      let '(b, q') := Put v q in
      let '(bs, q'') := put_many vs' q' in (b :: bs, q'')
  end.
End Queue.
Global Arguments UnboundedBlockingQueue : clear implicits.
Global Arguments TakeResult : clear implicits.
End Queue.

(** ** The queue shared by threads

    The monitor discipline of the class, one step per critical section.
    A call of [Take] is [Ready] when it is about to test the loop guard
    with the mutex held (it has just been called, or it has been woken),
    [Waiting] while it is suspended in [buffer_empty_.wait], and [Got r]
    once it has returned [r].  [notify_one] wakes one suspended call if
    there is any, [notify_all] wakes all of them, and a suspended call may
    also wake on its own, as [std::condition_variable::wait] allows. *)
Module Monitor.
Section Monitor.
Context {T : Type}.

Inductive call : Type :=
| Ready
| Waiting
| Got (r : option T).

Record state : Type := MkState {
  queue : Queue.UnboundedBlockingQueue T;
  calls : list call
}.

Definition wake (c : call) : call :=
  match c with
  | Waiting => Ready
  | _ => c
  end.

Definition notify_all (cs : list call) : list call := wake <$> cs.

(** [cs'] is a possible outcome of [notify_one] on [cs]. *)
Inductive notify_one (cs : list call) : list call → Prop :=
| notify_nobody :
    (∀ t, cs !! t ≠ Some Waiting) → notify_one cs cs
| notify_waiter t :
    cs !! t = Some Waiting → notify_one cs (<[t := Ready]> cs).

Definition do_close (clear : bool) (s : state) : state :=
  {| queue := Queue.CloseImpl clear (queue s);
     calls := notify_all (calls s) |}.

(** The critical section of a [Ready] call of [Take]. *)
Definition do_test (t : nat) (s : state) : state :=
  match Queue.Take (queue s) with
  | Queue.Blocks =>
      {| queue := queue s; calls := <[t := Waiting]> (calls s) |}
  | Queue.Returns r q' =>
      {| queue := q'; calls := <[t := Got r]> (calls s) |}
  end.

Inductive step : state → state → Prop :=
| step_call_Take s :
    step s {| queue := queue s; calls := calls s ++ [Ready] |}
| step_test s t :
    calls s !! t = Some Ready →
    step s (do_test t s)
| step_spurious s t :
    calls s !! t = Some Waiting →
    step s {| queue := queue s; calls := <[t := Ready]> (calls s) |}
| step_Put s v accepted q' cs' :
    Queue.Put v (queue s) = (accepted, q') →
    (if accepted then notify_one (calls s) cs' else cs' = calls s) →
    step s {| queue := q'; calls := cs' |}
| step_Close s :
    step s (do_close false s)
| step_Cancel s :
    step s (do_close true s).

Definition steps : state → state → Prop := rtc step.
End Monitor.
Global Arguments call : clear implicits.
Global Arguments state : clear implicits.
End Monitor.

(** ** Runs and the worker bodies

    The input file is the sequence of its 4-byte integers; a position in
    it is a byte offset.  A run file is the sequence of the integers
    printed in it: [std::ostream_iterator<int>(ostr, " ")] and
    [ostr << v << " "] both end every number with a blank.  A file name is
    the integer whose decimal text it is ([std::to_string] of the offset
    or of the id). *)
Module Worker.

Record SortTask : Type := MkSortTask {
  offset : Z;
  max_numbers : Z
}.

Definition file_size (input : list Z) : Z :=
  sizeof_int * Z.of_nat (length input).

(** [istr.seekg(task.offset)]; the offsets [SortBatchFiles] hands out are
    multiples of [sizeof(int)]. *)
Definition seekg (input : list Z) (offset : Z) : list Z :=
  drop (Z.to_nat (offset / sizeof_int)) input.

(** The read loop of [SorterRoutine], on what is left of the input after
    the get position.  [eof] is raised by the first [read] that finds no
    bytes, not by the one that consumes the last ones; [number] then
    keeps its initial [0], which is pushed before the guard is tested
    again. *)
Fixpoint read_numbers (rest : list Z) (i max_numbers : Z) : list Z :=
  if bool_decide (i < max_numbers) then
    match rest with
    | number :: rest' => number :: read_numbers rest' (i + 1) max_numbers
    | [] => [0]
    end
  else [].

Definition numbers_for_sort (input : list Z) (task : SortTask) : list Z :=
  read_numbers (seekg input (offset task)) 0 (max_numbers task).

(** [std::sort] on [int]s: the ascending arrangement, which is unique. *)
Definition std_sort (numbers : list Z) : list Z := merge_sort Z.le numbers.

Definition sorted_numbers (input : list Z) (task : SortTask) : list Z :=
  std_sort (numbers_for_sort input task).

(** [SorterRoutine]: the [ofstream] creates (or empties) the file named
    after the offset; numbers and the name are published only when
    there are numbers. *)
Definition SorterRoutine (input : list Z) (task : SortTask)
    (files : gmap Z (list Z)) (sorted_parts : Queue.UnboundedBlockingQueue Z)
  : gmap Z (list Z) * Queue.UnboundedBlockingQueue Z :=
  let output_filename := offset task in
  let numbers := sorted_numbers input task in
  match numbers with
  | [] => (<[output_filename := []]> files, sorted_parts)
  | _ :: _ =>
      (<[output_filename := numbers]> files,
       (Queue.Put output_filename sorted_parts).2)
  end.

(** A text [ifstream] on a run file.  Since every number is followed by
    a blank, extracting the last number stops at the blank and leaves
    [eof] clear; the extraction after it finds the end, raises [eof] and
    leaves the variable alone. *)
Record ifstream : Type := MkIfstream {
  pending : list Z;
  eofbit : bool
}.

Definition open (content : list Z) : ifstream :=
  {| pending := content; eofbit := false |}.

Definition extract (s : ifstream) (value : Z) : ifstream * Z :=
  match pending s with
  | v :: rest => ({| pending := rest; eofbit := eofbit s |}, v)
  | [] => ({| pending := []; eofbit := true |}, value)
  end.

Record merge_state : Type := MkMergeState {
  istr1 : ifstream;
  istr2 : ifstream;
  value1 : Z;
  value2 : Z;
  ostr : list Z
}.

Definition read1 (st : merge_state) : merge_state :=
  let '(s, v) := extract (istr1 st) (value1 st) in
  {| istr1 := s; istr2 := istr2 st; value1 := v; value2 := value2 st;
     ostr := ostr st |}.

Definition read2 (st : merge_state) : merge_state :=
  let '(s, v) := extract (istr2 st) (value2 st) in
  {| istr1 := istr1 st; istr2 := s; value1 := value1 st; value2 := v;
     ostr := ostr st |}.

Definition write (v : Z) (st : merge_state) : merge_state :=
  {| istr1 := istr1 st; istr2 := istr2 st; value1 := value1 st;
     value2 := value2 st; ostr := ostr st ++ [v] |}.

Fixpoint while (fuel : nat) (cond : merge_state → bool)
    (body : merge_state → merge_state) (st : merge_state)
  : option merge_state :=
  if cond st then
    match fuel with
    | O => None
    | S fuel' => while fuel' cond body (body st)
    end
  else Some st.

Definition both_open (st : merge_state) : bool :=
  negb (eofbit (istr1 st)) && negb (eofbit (istr2 st)).
Definition open1 (st : merge_state) : bool := negb (eofbit (istr1 st)).
Definition open2 (st : merge_state) : bool := negb (eofbit (istr2 st)).

Definition merge_body (st : merge_state) : merge_state :=
  if bool_decide (value1 st < value2 st)
  then read1 (write (value1 st) st)
  else read2 (write (value2 st) st).
Definition drain1 (st : merge_state) : merge_state :=
  read1 (write (value1 st) st).
Definition drain2 (st : merge_state) : merge_state :=
  read2 (write (value2 st) st).

(** The three loops of [MergeRoutine] on the contents of its two input
    files; [None] when [fuel] iterations do not finish a loop. *)
Definition merge_files (fuel : nat) (content1 content2 : list Z)
  : option (list Z) :=
  let st0 := read2 (read1 {| istr1 := open content1;
                             istr2 := open content2;
                             value1 := 0; value2 := 0; ostr := [] |}) in
  st1 ← while fuel both_open merge_body st0;
  st2 ← while fuel open1 drain1 st1;
  st3 ← while fuel open2 drain2 st2;
  Some (ostr st3).

(** What [MergeRoutine] still has to write from a stream: the value it
    holds and what the stream has not delivered, nothing once [eof] is
    up. *)
Definition remaining (s : ifstream) (value : Z) : list Z :=
  if eofbit s then [] else value :: pending s.
Definition rest1 (st : merge_state) : list Z :=
  remaining (istr1 st) (value1 st).
Definition rest2 (st : merge_state) : list Z :=
  remaining (istr2 st) (value2 st).

(** The contents of a run: in ascending order. *)
Definition ascending (numbers : list Z) : Prop := Sorted Z.le numbers.

Record MergeTask : Type := MkMergeTask {
  filename1 : Z;
  filename2 : Z;
  id : Z
}.

(** [MergeRoutine]: the output file is created (emptied) before the
    first extraction.  An [ifstream] on a file that does not exist never
    raises [eof], so the routine does not return: [None] at every
    [fuel]. *)
Definition MergeRoutine (fuel : nat) (task : MergeTask)
    (files : gmap Z (list Z)) (sorted_parts : Queue.UnboundedBlockingQueue Z)
  : option (gmap Z (list Z) * Queue.UnboundedBlockingQueue Z) :=
  let output_filename := id task in
  let opened := <[output_filename := []]> files in
  content1 ← opened !! filename1 task;
  content2 ← opened !! filename2 task;
  merged ← merge_files fuel content1 content2;
  Some (<[output_filename := merged]> files,
        (Queue.Put output_filename sorted_parts).2).

(** The [for] loop of [SortBatchFiles] with [iterations] rounds left
    before [i] reaches the bound; it returns the tasks it starts threads
    for and the final [merge_file_count]. *)
Fixpoint batch_loop (file_size batch_bytes batch_size : Z)
    (iterations : nat) (i merge_file_count : Z) : list SortTask * Z :=
  match iterations with
  | O => ([], merge_file_count)
  | S iterations' =>
      let thread_task := {| offset := to_size_t (i * batch_bytes);
                            max_numbers := batch_size |} in
      if bool_decide (file_size ≤ offset thread_task)
      then ([], merge_file_count)
      else
        let '(spawned, count) :=
          batch_loop file_size batch_bytes batch_size iterations'
                     (to_size_t (i + 1)) (to_size_t (merge_file_count + 1)) in
        (thread_task :: spawned, count)
  end.

(** [SortBatchFiles]; [None] is the division by zero in the loop bound. *)
Definition SortBatchFiles (file_size batch_size : Z)
  : option (list SortTask * Z) :=
  let batch_bytes := to_size_t (batch_size * sizeof_int) in
  if bool_decide (batch_bytes = 0) then None
  else
    let bound := to_size_t (file_size / batch_bytes + 1) in
    Some (batch_loop file_size batch_bytes batch_size (Z.to_nat bound) 0 0).

(** [ceil(length / batch_size)] for a batch size of at least one. *)
Definition ceil_div (length batch_size : Z) : Z :=
  (length + batch_size - 1) / batch_size.

(** The task [SortBatchFiles] builds in round [i], and what it is when
    [batch_size * sizeof(int)] does not wrap. *)
Definition task_at (batch_bytes batch_size i : Z) : SortTask :=
  {| offset := i * batch_bytes; max_numbers := batch_size |}.
Definition chunk_task (batch_size i : Z) : SortTask :=
  task_at (batch_size * sizeof_int) batch_size i.

(** What the read loops of all the sorters add to the input: the [0] of
    the failing read when the last chunk is not full. *)
Definition end_of_file_zero (length batch_size : Z) : list Z :=
  if bool_decide (length mod batch_size = 0) then [] else [0].
End Worker.

(** ** The pipeline of [main]

    The threads of the program touch nothing but the queue and the run
    files, so a state is the queue, the files, the started threads that have
    not done their work yet, and the place [main] has reached.  A worker
    thread does its work in one step: its reads are of files whose names
    it was handed and its only write is to a file of its own, published by
    the [Put] that ends it.  What a worker writes counts as being in the
    file from that [Put] on; the routine closes its [ofstream] when it
    returns, which is right after the [Put].  The state in which
    [SortBatchFiles] has returned and no sorter has run stands for every
    state of its loop, because the loop touches neither the queue nor the
    files. *)
Module Pipeline.
Import Worker.

(** Where [main] is inside [MergeBatchFiles]. *)
Inductive main_thread : Type :=
| AtLoop (tasks_count id : Z)
| TookFirst (tasks_count id filename1 : Z)
| TookBoth (tasks_count id filename1 filename2 : Z)
| Finished (output_file : Z)
| Undefined.

Record state : Type := MkState {
  sorted_parts : Queue.UnboundedBlockingQueue Z;
  files : gmap Z (list Z);
  sorters : list SortTask;
  mergers : list MergeTask;
  main : main_thread
}.

Inductive event : Type :=
| SorterRan (task : SortTask)
| MergerRan (task : MergeTask)
| Took (filename : Z)
| Launched (task : MergeTask)
| Dereferenced_nullopt.

(** What [*sorted_parts.Take()] gives [main]: nothing while the call
    blocks, a name, or undefined behaviour on an empty optional. *)
Inductive main_take (q : Queue.UnboundedBlockingQueue Z)
  : option Z → Queue.UnboundedBlockingQueue Z → Prop :=
| main_take_name f q' :
    Queue.Take q = Queue.Returns (Some f) q' → main_take q (Some f) q'
| main_take_nullopt q' :
    Queue.Take q = Queue.Returns None q' → main_take q None q'.

Section Step.
Variable input : list Z.

Inductive step : state → event → state → Prop :=
| step_SorterRoutine s before task after files' q' :
    sorters s = before ++ task :: after →
    SorterRoutine input task (files s) (sorted_parts s) = (files', q') →
    step s (SorterRan task)
         {| sorted_parts := q'; files := files';
            sorters := before ++ after; mergers := mergers s;
            main := main s |}
| step_MergeRoutine s before task after fuel files' q' :
    mergers s = before ++ task :: after →
    MergeRoutine fuel task (files s) (sorted_parts s) = Some (files', q') →
    step s (MergerRan task)
         {| sorted_parts := q'; files := files';
            sorters := sorters s; mergers := before ++ after;
            main := main s |}
| step_MergeBatchFiles_Take1 s tasks_count id f q' :
    main s = AtLoop tasks_count id →
    1 < tasks_count →
    main_take (sorted_parts s) (Some f) q' →
    step s (Took f)
         {| sorted_parts := q'; files := files s;
            sorters := sorters s; mergers := mergers s;
            main := TookFirst (to_size_t (tasks_count - 1)) id f |}
| step_MergeBatchFiles_Take2 s tasks_count id f1 f q' :
    main s = TookFirst tasks_count id f1 →
    main_take (sorted_parts s) (Some f) q' →
    step s (Took f)
         {| sorted_parts := q'; files := files s;
            sorters := sorters s; mergers := mergers s;
            main := TookBoth tasks_count id f1 f |}
| step_MergeBatchFiles_thread s tasks_count id f1 f2 :
    main s = TookBoth tasks_count id f1 f2 →
    let thread_task :=
      {| filename1 := f1; filename2 := f2; id := int_pred id |} in
    step s (Launched thread_task)
         {| sorted_parts := sorted_parts s; files := files s;
            sorters := sorters s; mergers := mergers s ++ [thread_task];
            main := AtLoop tasks_count (int_pred id) |}
| step_MergeBatchFiles_return s tasks_count id f q' :
    main s = AtLoop tasks_count id →
    ¬ 1 < tasks_count →
    main_take (sorted_parts s) (Some f) q' →
    step s (Took f)
         {| sorted_parts := q'; files := files s;
            sorters := sorters s; mergers := mergers s;
            main := Finished f |}
| step_MergeBatchFiles_nullopt s q' :
    (∃ tasks_count id, main s = AtLoop tasks_count id) ∨
    (∃ tasks_count id f1, main s = TookFirst tasks_count id f1) →
    main_take (sorted_parts s) None q' →
    step s Dereferenced_nullopt
         {| sorted_parts := q'; files := files s;
            sorters := sorters s; mergers := mergers s;
            main := Undefined |}.

(** Executions, with the events in the order they happened. *)
Inductive exec (s : state) : list event → state → Prop :=
| exec_nil : exec s [] s
| exec_snoc tr s1 e s2 :
    exec s tr s1 → step s1 e s2 → exec s (tr ++ [e]) s2.
End Step.

(** [MergeBatchFiles(sorted_parts, tasks_count)] is entered with
    [id = -1]. *)
Definition enter_MergeBatchFiles (q : Queue.UnboundedBlockingQueue Z)
    (files : gmap Z (list Z)) (running : list SortTask) (tasks_count : Z)
  : state :=
  {| sorted_parts := q; files := files; sorters := running; mergers := [];
     main := AtLoop tasks_count (-1) |}.

(** [main]: [atoi_argv2] is what [std::atoi(argv[2])] returned, an [int]
    converted to [size_t]; [files] is what the working directory holds.
    [None] is the division by zero of [SortBatchFiles]. *)
Definition main_start (input : list Z) (atoi_argv2 : Z)
    (files : gmap Z (list Z)) : option state :=
  let batch_size := to_size_t atoi_argv2 in
  '(running, merge_files_count) ←
    SortBatchFiles (file_size input) batch_size;
  Some (enter_MergeBatchFiles Queue.new_queue files running
                              merge_files_count).

Definition launches (tr : list event) : list MergeTask :=
  omap (λ e, match e with Launched task => Some task | _ => None end) tr.
Definition takes (tr : list event) : list Z :=
  omap (λ e, match e with Took f => Some f | _ => None end) tr.
Definition merges_done (tr : list event) : list MergeTask :=
  omap (λ e, match e with MergerRan task => Some task | _ => None end) tr.
Definition sorts_done (tr : list event) : list SortTask :=
  omap (λ e, match e with SorterRan task => Some task | _ => None end) tr.
(** *** What the runs in flight hold

    The names [main] or a merger holds or the queue buffers are [live]:
    each is the name of a finished run that will be read once more.  The
    names in [outputs] are those the running workers will write to. *)
Definition held (m : main_thread) : list Z :=
  match m with
  | TookFirst _ _ f1 => [f1]
  | TookBoth _ _ f1 f2 => [f1; f2]
  | Finished f => [f]
  | AtLoop _ _ | Undefined => []
  end.

Definition inputs (ms : list MergeTask) : list Z :=
  ms ≫= λ task, [filename1 task; filename2 task].

Definition live (s : state) : list Z :=
  Queue.buffer_ (sorted_parts s) ++ held (main s) ++ inputs (mergers s).

Definition outputs (s : state) : list Z :=
  (offset <$> sorters s) ++ (id <$> mergers s).

Definition run_of (files : gmap Z (list Z)) (f : Z) : list Z :=
  default [] (files !! f).

Definition numbers_of (files : gmap Z (list Z)) (names : list Z) : list Z :=
  names ≫= run_of files.

(** The runs that are or will be in the queue. *)
Definition pool (s : state) : Z :=
  Z.of_nat (length (Queue.buffer_ (sorted_parts s))
            + length (sorters s) + length (mergers s)).

(** [tasks_count] keeps track of the pool. *)
Definition expects (s : state) : Prop :=
  match main s with
  | AtLoop tasks_count _ | TookFirst tasks_count _ _ =>
      pool s = tasks_count ∧ 1 ≤ tasks_count < size_t_modulus
  | TookBoth tasks_count _ _ _ =>
      pool s + 1 = tasks_count ∧ 1 ≤ tasks_count < size_t_modulus
  | Finished _ => pool s = 0
  | Undefined => False
  end.

Definition counts (s : state) : Prop :=
  Queue.is_closed_ (sorted_parts s) = false ∧
  expects s ∧
  (∀ task, task ∈ sorters s → 0 < max_numbers task) ∧
  (∀ f, f ∈ live s → is_Some (files s !! f)).

(** The id [main] holds and the number of mergers it has still to
    launch. *)
Definition launches_left (m : main_thread) : option (Z * Z) :=
  match m with
  | AtLoop tasks_count id => Some (id, tasks_count - 1)
  | TookFirst tasks_count id _ | TookBoth tasks_count id _ _ =>
      Some (id, tasks_count)
  | Finished _ | Undefined => None
  end.

(** The ids to come are in the range of [int] and below every name in
    use. *)
Definition names_fresh (s : state) : Prop :=
  match launches_left (main s) with
  | Some (id, todo) =>
      INT_MIN ≤ id - todo ∧ id < 0 ∧
      ∀ f, f ∈ live s ++ outputs s → id ≤ f
  | None => True
  end.

(** No worker writes to a file that is still to be read, the live runs
    are ascending, and together with what the sorters have still to
    deliver they hold the numbers of [target]. *)
Definition contents (input target : list Z) (s : state) : Prop :=
  NoDup (outputs s) ∧
  (∀ f, f ∈ outputs s → f ∉ live s) ∧
  names_fresh s ∧
  (∀ f, f ∈ live s → ascending (run_of (files s) f)) ∧
  numbers_of (files s) (live s)
    ++ concat (sorted_numbers input <$> sorters s) ≡ₚ target.

Definition weight (m : main_thread) : nat :=
  match m with
  | AtLoop tasks_count _ => 5 * Z.to_nat tasks_count + 1
  | TookFirst tasks_count _ _ => 5 * Z.to_nat tasks_count + 4
  | TookBoth tasks_count _ _ _ => 5 * Z.to_nat tasks_count + 3
  | Finished _ | Undefined => 0
  end.

(** A bound on the number of steps a state has left. *)
Definition steps_left (s : state) : nat :=
  length (sorters s) + length (mergers s) + weight (main s).

(** *** Bookkeeping along an execution *)

(** The names [Put] into the queue, in order: a sorter with numbers
    publishes its offset, a merger its id. *)
Definition published (tr : list event) : list Z :=
  omap (λ e, match e with
             | SorterRan task => Some (offset task)
             | MergerRan task => Some (id task)
             | _ => None
             end) tr.

(** The mergers launched so far and [tasks_count] add up to the number
    of runs [MergeBatchFiles] was called with. *)
Definition progress_of (runs : Z) (tr : list event) (m : main_thread)
  : Prop :=
  let launched := Z.of_nat (length (launches tr)) in
  match m with
  | AtLoop tasks_count _ => launched + tasks_count = runs
  | TookFirst tasks_count _ _ | TookBoth tasks_count _ _ _ =>
      launched + tasks_count + 1 = runs
  | Finished _ => launched + 1 = runs
  | Undefined => False
  end.

Definition accounts (runs : Z) (running : list SortTask)
    (tr : list event) (s : state) : Prop :=
  progress_of runs tr (main s) ∧
  takes tr = inputs (launches tr) ++ held (main s) ∧
  takes tr ++ Queue.buffer_ (sorted_parts s) = published tr ∧
  merges_done tr ++ mergers s ≡ₚ launches tr ∧
  sorts_done tr ++ sorters s ≡ₚ running.

End Pipeline.

(** ** Histories of calls on the queue

    The calls of all threads, in the order in which they held the mutex.
    A [Take] that finds the queue open and empty waits and leaves the
    queue as it is, so it does not show in the history until it is woken
    and holds the mutex again. *)
Module History.
Section History.
Context {T : Type}.

Inductive call : Type :=
| CallPut (value : T)
| CallTake
| CallClose
| CallCancel.

Record outcome : Type := MkOutcome {
  taken : list T;
  accepted : list T;
  empties : nat;
  final : Queue.UnboundedBlockingQueue T
}.

(** The values [Take] returned, the values [Put] accepted, the number
    of empty optionals returned and the queue at the end. *)
Fixpoint run (calls : list call) (q : Queue.UnboundedBlockingQueue T)
  : outcome :=
  match calls with
  | [] => {| taken := []; accepted := []; empties := 0; final := q |}
  | CallPut value :: calls' =>
      let '(ok, q') := Queue.Put value q in
      let o := run calls' q' in
      {| taken := taken o;
         accepted := if ok then value :: accepted o else accepted o;
         empties := empties o; final := final o |}
  | CallTake :: calls' =>
      match Queue.Take q with
      | Queue.Blocks => run calls' q
      | Queue.Returns (Some value) q' =>
          let o := run calls' q' in
          {| taken := value :: taken o; accepted := accepted o;
             empties := empties o; final := final o |}
      | Queue.Returns None q' =>
          let o := run calls' q' in
          {| taken := taken o; accepted := accepted o;
             empties := S (empties o); final := final o |}
      end
  | CallClose :: calls' => run calls' (Queue.Close q)
  | CallCancel :: calls' => run calls' (Queue.Cancel q)
  end.

Definition is_cancel (c : call) : bool :=
  match c with
  | CallCancel => true
  | _ => false
  end.
End History.
Global Arguments call : clear implicits.
Global Arguments outcome : clear implicits.
End History.

(** ** Suspended and awake calls of [Take] *)
Module Wakeups.
Section Wakeups.
Context {T : Type}.

Definition is_waiting (c : Monitor.call T) : bool :=
  match c with
  | Monitor.Waiting => true
  | _ => false
  end.

Definition is_ready (c : Monitor.call T) : bool :=
  match c with
  | Monitor.Ready => true
  | _ => false
  end.

Fixpoint count (p : Monitor.call T → bool) (cs : list (Monitor.call T))
  : nat :=
  match cs with
  | [] => 0
  | c :: cs' => (if p c then 1 else 0) + count p cs'
  end.

(** No wake-up is lost: on a closed queue no call is suspended, and on
    an open queue calls are suspended only if the awake ones are enough
    for the items in the buffer. *)
Definition no_lost_wakeup (s : Monitor.state T) : Prop :=
  if Queue.is_closed_ (Monitor.queue s)
  then count is_waiting (Monitor.calls s) = 0%nat
  else count is_waiting (Monitor.calls s) = 0%nat ∨
       (length (Queue.buffer_ (Monitor.queue s))
        ≤ count is_ready (Monitor.calls s))%nat.

Definition fresh : Monitor.state T :=
  {| Monitor.queue := Queue.new_queue; Monitor.calls := [] |}.
End Wakeups.
End Wakeups.

(** ** [IsSorted]

    The checker of [main.cpp].  Its loop starts every round with a
    [value] of [0], extracts into it and pushes it, so the vector ends
    with the value of the extraction that met the end of the file; that
    one is popped.  On a file that does not exist the stream never raises
    [eof] and the loop does not end: [None] at every [fuel]. *)
Module Checker.
Import Worker.

Fixpoint read_all (fuel : nat) (istr : ifstream) (vec : list Z)
  : option (list Z) :=
  if eofbit istr then Some vec
  else
    match fuel with
    | O => None
    | S fuel' =>
        let '(istr', value) := extract istr 0 in
        read_all fuel' istr' (vec ++ [value])
    end.

(** [if (!vec.empty()) vec.pop_back()]. *)
Definition pop_back (vec : list Z) : list Z :=
  take (length vec - 1) vec.

(** [std::is_sorted]: no element is less than the one before it. *)
Fixpoint is_sorted (vec : list Z) : bool :=
  match vec with
  | [] => true
  | x :: rest =>
      match rest with
      | [] => true
      | y :: _ => negb (bool_decide (y < x)) && is_sorted rest
      end
  end.

Definition IsSorted (fuel : nat) (files : gmap Z (list Z)) (filename : Z)
  : option bool :=
  content ← files !! filename;
  vec ← read_all fuel (open content) [];
  Some (is_sorted (pop_back vec)).
End Checker.

(** ** File names along an execution *)
Module Names.
Import Worker Pipeline.

Definition current_id (m : main_thread) : option Z :=
  match m with
  | AtLoop _ id | TookFirst _ id _ | TookBoth _ id _ _ => Some id
  | Finished _ | Undefined => None
  end.

(** The ids are handed out downwards from [-2], and a merger's inputs
    have names above its own. *)
Definition ids_in_order (tr : list event) (s : state) : Prop :=
  (∀ id, current_id (main s) = Some id →
         id = -1 - Z.of_nat (length (launches tr))) ∧
  id <$> launches tr
  = (λ k, -2 - k) <$> seqZ 0 (Z.of_nat (length (launches tr))) ∧
  (∀ task, task ∈ launches tr →
           id task < filename1 task ∧ id task < filename2 task).

(** No thread still to run writes to a file that was published, and
    no id still to be handed out is the name of one. *)
Definition published_safe (tr : list event) (s : state) : Prop :=
  (∀ f, f ∈ published tr → f ∉ outputs s) ∧
  (∀ id, current_id (main s) = Some id →
         ∀ f, f ∈ published tr → id ≤ f).

(** What the files hold: the run of every sorter that ran, for every
    merger that ran the merge of what its two inputs hold, and in any
    other file what the directory [dir] had at the start. *)
Definition on_disk (input : list Z) (dir : gmap Z (list Z))
    (tr : list event) (s : state) : Prop :=
  (∀ task, task ∈ sorts_done tr →
     files s !! offset task = Some (sorted_numbers input task)) ∧
  (∀ task, task ∈ merges_done tr →
     ∃ content1 content2,
       files s !! filename1 task = Some content1 ∧
       files s !! filename2 task = Some content2 ∧
       files s !! id task = Some (list_merge Z.lt content1 content2)) ∧
  (∀ f, f ∉ published tr → files s !! f = dir !! f).
End Names.

(** * Properties *)

(** ** The queue *)
Section QueueFacts.
Context {T : Type}.
Implicit Types (q : Queue.UnboundedBlockingQueue T) (v : T).
Import Queue.

Lemma Put_closed v q : is_closed_ q = true → Put v q = (false, q).
Proof. unfold Put. by intros ->. Qed.

Lemma Put_open v q :
  is_closed_ q = false →
  Put v q = (true, {| is_closed_ := false; buffer_ := buffer_ q ++ [v] |}).
Proof. unfold Put. by intros ->. Qed.

Lemma Take_empty_open q :
  is_closed_ q = false → buffer_ q = [] → Take q = Blocks.
Proof. unfold Take, must_wait. by intros -> ->. Qed.

Lemma Take_empty_closed q :
  is_closed_ q = true → buffer_ q = [] → Take q = Returns None q.
Proof. unfold Take, must_wait. by intros -> ->. Qed.

Lemma Take_front q x rest :
  buffer_ q = x :: rest →
  Take q = Returns (Some x) {| is_closed_ := is_closed_ q; buffer_ := rest |}.
Proof. unfold Take, must_wait. by intros ->. Qed.

Lemma Take_Returns_inv q r q' :
  Take q = Returns r q' →
  is_closed_ q' = is_closed_ q ∧
  match r with
  | Some x => buffer_ q = x :: buffer_ q'
  | None => buffer_ q = [] ∧ is_closed_ q = true ∧ q' = q
  end.
Proof.
  unfold Take, must_wait. destruct q as [c [|x rest]]; simpl.
  - destruct c; simpl; [|done]. by intros [= <- <-].
  - by intros [= <- <-].
Qed.

Lemma take_many_buffer b (xs : list T) :
  take_many (length xs) {| is_closed_ := b; buffer_ := xs |}
  = (Some <$> xs, {| is_closed_ := b; buffer_ := [] |}).
Proof.
  induction xs as [|x xs IH]; [done|].
  cbn [length take_many]. rewrite (Take_front _ x xs) by done.
  cbn [is_closed_]. by rewrite IH.
Qed.

Lemma take_many_app n m q rs q' :
  take_many n q = (rs, q') → length rs = n →
  take_many (n + m) q = (rs ++ (take_many m q').1, (take_many m q').2).
Proof.
  revert q rs. induction n as [|n IH]; intros q rs; simpl.
  - intros [= <- <-] _. simpl. by destruct (take_many m q).
  - destruct (Take q) as [|r q1]; [by intros [= <- <-]|].
    destruct (take_many n q1) as [rs1 q2] eqn:E.
    intros [= <- <-] [= Hlen]. by rewrite (IH _ _ E Hlen).
Qed.

Lemma put_many_open (vs : list T) q :
  is_closed_ q = false →
  put_many vs q = (replicate (length vs) true,
                   {| is_closed_ := false; buffer_ := buffer_ q ++ vs |}).
Proof.
  revert q. induction vs as [|v vs IH]; intros q Hq; simpl.
  - rewrite app_nil_r. destruct q; simpl in *; by subst.
  - rewrite (Put_open _ _ Hq), IH by done. simpl. by rewrite <- app_assoc.
Qed.
End QueueFacts.

(** ** The queue under concurrent callers *)
Section MonitorFacts.
Context {T : Type}.
Implicit Types (s : Monitor.state T) (cs : list (Monitor.call T)).
Import Queue Monitor.

Lemma notify_all_lookup cs t :
  notify_all cs !! t = wake <$> (cs !! t).
Proof. apply list_lookup_fmap. Qed.

(** Once the queue is closed it stays closed, its buffer can only lose
    elements, and whatever a call of [Take] returns from then on comes out
    of the buffer. *)
Lemma closed_step s s' :
  step s s' → is_closed_ (queue s) = true →
  is_closed_ (queue s') = true ∧
  (∀ x, x ∈ buffer_ (queue s') → x ∈ buffer_ (queue s)) ∧
  (∀ t x, calls s' !! t = Some (Got (Some x)) →
          calls s !! t = Some (Got (Some x)) ∨ x ∈ buffer_ (queue s)).
Proof.
  intros Hstep Hc. destruct Hstep as [s|s t Ht|s t Ht|s v b q' cs' HP Hn|s|s];
    simpl.
  - split_and!; [done..|]. intros t x Hl.
    apply lookup_app_Some in Hl as [Hl|[_ Hl]]; [by left|].
    apply list_lookup_singleton_Some in Hl as [_ [=]].
  - unfold do_test. destruct (Take (queue s)) as [|r q'] eqn:HT; simpl.
    + split_and!; [done..|]. intros t' x Hl.
      destruct (decide (t = t')) as [<-|Hne].
      * rewrite list_lookup_insert_eq in Hl by (by eapply lookup_lt_Some).
        done.
      * rewrite list_lookup_insert_ne in Hl by done. by left.
    + apply Take_Returns_inv in HT as [Hc' Hr]. split_and!.
      * congruence.
      * intros x Hx. destruct r as [y|].
        -- rewrite Hr. apply elem_of_cons. by right.
        -- by destruct Hr as (_ & _ & ->).
      * intros t' x Hl. destruct (decide (t = t')) as [<-|Hne].
        -- rewrite list_lookup_insert_eq in Hl by (by eapply lookup_lt_Some).
           injection Hl as ->. right. rewrite Hr. apply elem_of_cons. by left.
        -- rewrite list_lookup_insert_ne in Hl by done. by left.
  - split_and!; [done..|]. intros t' x Hl.
    destruct (decide (t = t')) as [<-|Hne].
    + rewrite list_lookup_insert_eq in Hl by (by eapply lookup_lt_Some). done.
    + rewrite list_lookup_insert_ne in Hl by done. by left.
  - rewrite (Put_closed _ _ Hc) in HP. injection HP as <- <-. subst cs'.
    split_and!; auto.
  - split_and!; auto. intros t x. rewrite notify_all_lookup.
    destruct (calls s !! t) as [[| |r]|]; simpl; try done. by left.
  - split_and!; [done|intros x Hx; by apply elem_of_nil in Hx|].
    intros t x. rewrite notify_all_lookup.
    destruct (calls s !! t) as [[| |r]|]; simpl; try done. by left.
Qed.

Lemma closed_steps s s' :
  steps s s' → is_closed_ (queue s) = true →
  is_closed_ (queue s') = true ∧
  (∀ x, x ∈ buffer_ (queue s') → x ∈ buffer_ (queue s)) ∧
  (∀ t x, calls s' !! t = Some (Got (Some x)) →
          calls s !! t = Some (Got (Some x)) ∨ x ∈ buffer_ (queue s)).
Proof.
  induction 1 as [s|s s1 s2 Hstep _ IH]; intros Hc; [by auto|].
  destruct (closed_step _ _ Hstep Hc) as (Hc1 & Hb1 & Hg1).
  destruct (IH Hc1) as (Hc2 & Hb2 & Hg2). split_and!; [done|by auto|].
  intros t x Hl. destruct (Hg2 _ _ Hl) as [Hl1|Hx]; [|by auto].
  destruct (Hg1 _ _ Hl1); by auto.
Qed.


(** On a closed and empty queue a call of [Take] that is awake stays
    awake until it returns, and it returns the empty optional. *)
Lemma drained_step s s' :
  step s s' → is_closed_ (queue s) = true → buffer_ (queue s) = [] →
  (is_closed_ (queue s') = true ∧ buffer_ (queue s') = []) ∧
  (∀ t, calls s !! t = Some Ready ∨ calls s !! t = Some (Got None) →
        calls s' !! t = Some Ready ∨ calls s' !! t = Some (Got None)).
Proof.
  intros Hstep Hc Hb.
  destruct Hstep as [s|s t Ht|s t Ht|s v b q' cs' HP Hn|s|s]; simpl.
  - split; [done|]. intros t Hl. rewrite lookup_app_l; [done|].
    destruct Hl as [Hl|Hl]; by eapply lookup_lt_Some.
  - unfold do_test. rewrite (Take_empty_closed _ Hc Hb). simpl.
    split; [done|]. intros t' Hl. destruct (decide (t = t')) as [<-|Hne].
    + rewrite list_lookup_insert_eq by (by eapply lookup_lt_Some). by right.
    + by rewrite list_lookup_insert_ne.
  - split; [done|]. intros t' Hl. destruct (decide (t = t')) as [<-|Hne].
    + rewrite list_lookup_insert_eq by (by eapply lookup_lt_Some). by left.
    + by rewrite list_lookup_insert_ne.
  - rewrite (Put_closed _ _ Hc) in HP. injection HP as <- <-. by subst cs'.
  - split; [done|]. intros t. rewrite notify_all_lookup.
    intros [->| ->]; simpl; by auto.
  - split; [done|]. intros t. rewrite notify_all_lookup.
    intros [->| ->]; simpl; by auto.
Qed.

Lemma drained_steps s s' :
  steps s s' → is_closed_ (queue s) = true → buffer_ (queue s) = [] →
  (is_closed_ (queue s') = true ∧ buffer_ (queue s') = []) ∧
  (∀ t, calls s !! t = Some Ready ∨ calls s !! t = Some (Got None) →
        calls s' !! t = Some Ready ∨ calls s' !! t = Some (Got None)).
Proof.
  induction 1 as [s|s s1 s2 Hstep _ IH]; intros Hc Hb; [by auto|].
  destruct (drained_step _ _ Hstep Hc Hb) as ([Hc1 Hb1] & Hr1).
  destruct (IH Hc1 Hb1) as (Hcb & Hr2). by auto.
Qed.

Lemma do_test_drained s t :
  is_closed_ (queue s) = true → buffer_ (queue s) = [] →
  do_test t s = {| queue := queue s; calls := <[t := Got None]> (calls s) |}.
Proof. intros Hc Hb. unfold do_test. by rewrite (Take_empty_closed _ Hc Hb). Qed.

(** Running the awake calls one after the other lets all of them
    return. *)
Lemma drained_finish q (done_ todo : list (Monitor.call T)) :
  is_closed_ q = true → buffer_ q = [] →
  Forall (λ c, c ≠ Waiting) todo →
  steps {| queue := q; calls := done_ ++ todo |}
        {| queue := q;
           calls := done_ ++ ((λ c, match c with Ready => Got None | _ => c end)
                                <$> todo) |}.
Proof.
  intros Hc Hb. revert done_.
  induction todo as [|c todo IH]; intros done_ Hw; [apply rtc_refl|].
  apply Forall_cons in Hw as [Hc0 Hw].
  specialize (IH (done_ ++ [match c with Ready => Got None | _ => c end]) Hw).
  rewrite <- !app_assoc in IH. simpl in IH |- *.
  destruct c as [| |r]; [|done|exact IH].
  eapply rtc_l; [|exact IH].
  pose proof (step_test {| queue := q; calls := done_ ++ Ready :: todo |}
                        (length done_)) as Hs.
  simpl in Hs. rewrite do_test_drained in Hs by done. simpl in Hs.
  rewrite list_lookup_middle in Hs by done.
  rewrite insert_app_r_alt, Nat.sub_diag in Hs by done. by apply Hs.
Qed.
End MonitorFacts.

(** C3.  A [Put(v)] performed after [Close()] or [Cancel()], in whatever
    state [s] the shared queue has reached since, returns [false] and
    leaves the queue as it was, so [v] is not enqueued; every value a call
    of [Take] returns from then on was in the buffer before that [Put],
    hence [v], unless it had been accepted earlier, is never returned. *)
Theorem Put_after_close_is_dropped {T : Type} (clear : bool)
    (s0 s : Monitor.state T) (v : T) :
  Monitor.steps (Monitor.do_close clear s0) s →
  Queue.Put v (Monitor.queue s) = (false, Monitor.queue s) ∧
  (∀ s', Monitor.steps s s' → ∀ t x,
     Monitor.calls s' !! t = Some (Monitor.Got (Some x)) →
     Monitor.calls s !! t = Some (Monitor.Got (Some x)) ∨
     x ∈ Queue.buffer_ (Monitor.queue s)) ∧
  (v ∉ Queue.buffer_ (Monitor.queue s) →
   ∀ s', Monitor.steps s s' → ∀ t,
     Monitor.calls s' !! t = Some (Monitor.Got (Some v)) →
     Monitor.calls s !! t = Some (Monitor.Got (Some v))).
Proof.
  intros Hreach.
  assert (Queue.is_closed_ (Monitor.queue s) = true) as Hc.
  { by apply (closed_steps _ _ Hreach). }
  split_and!.
  - by apply Put_closed.
  - intros s' Hs' t x. by apply (closed_steps _ _ Hs' Hc).
  - intros Hv s' Hs' t Hl.
    destruct (closed_steps _ _ Hs' Hc) as (_ & _ & Hg).
    by destruct (Hg _ _ Hl).
Qed.

Lemma Put_after_close_is_dropped_witness :
  Queue.Put 7 (Queue.Close {| Queue.is_closed_ := false;
                              Queue.buffer_ := [1; 2] |})
  = (false, {| Queue.is_closed_ := true; Queue.buffer_ := [1; 2] |}).
Proof.
  exact (proj1 (Put_after_close_is_dropped false
    {| Monitor.queue := {| Queue.is_closed_ := false;
                           Queue.buffer_ := [1; 2] |};
       Monitor.calls := [Monitor.Waiting] |}
    _ 7 (rtc_refl _ _))).
Defined.

(** C4.  [Take] on a closed and empty queue returns the empty optional
    instead of blocking; after [Close()] the successive calls of [Take]
    return the buffered items from the head on, which is the order of
    their [Put]s, and the call after the last item returns the empty
    optional. *)
Theorem Take_after_Close_drains {T : Type} :
  Queue.Take {| Queue.is_closed_ := true; Queue.buffer_ := @nil T |}
  = Queue.Returns None {| Queue.is_closed_ := true; Queue.buffer_ := [] |} ∧
  (∀ q : Queue.UnboundedBlockingQueue T,
     Queue.take_many (length (Queue.buffer_ q) + 1) (Queue.Close q)
     = ((Some <$> Queue.buffer_ q) ++ [None],
        {| Queue.is_closed_ := true; Queue.buffer_ := [] |})) ∧
  (∀ vs : list T,
     Queue.take_many (length vs + 1)
       (Queue.Close (Queue.put_many vs Queue.new_queue).2)
     = ((Some <$> vs) ++ [None],
        {| Queue.is_closed_ := true; Queue.buffer_ := [] |})).
Proof.
  assert (∀ q : Queue.UnboundedBlockingQueue T,
     Queue.take_many (length (Queue.buffer_ q) + 1) (Queue.Close q)
     = ((Some <$> Queue.buffer_ q) ++ [None],
        {| Queue.is_closed_ := true; Queue.buffer_ := [] |})) as Hdrain.
  { intros q.
    unfold Queue.Close, Queue.CloseImpl.
    erewrite take_many_app;
      [|apply take_many_buffer|by rewrite length_fmap].
    done. }
  split_and!; [done|exact Hdrain|].
  intros vs. specialize (Hdrain (Queue.put_many vs Queue.new_queue).2).
  rewrite put_many_open in Hdrain |- * by done. exact Hdrain.
Qed.

(** C5.  [Cancel()] empties the buffer, and it stays empty; every call of
    [Take] that was suspended when [Cancel()] ran is woken by it, is never
    suspended again, and returns the empty optional as soon as it runs;
    no call of [Take] returns an item after [Cancel()], so the buffered
    items are never observed; and the calls in progress can all run to
    their return. *)
Theorem Cancel_discards_and_wakes {T : Type} (s s' : Monitor.state T) :
  Monitor.steps (Monitor.do_close true s) s' →
  Queue.buffer_ (Monitor.queue (Monitor.do_close true s)) = [] ∧
  Queue.buffer_ (Monitor.queue s') = [] ∧
  (∀ t, Monitor.calls s !! t = Some Monitor.Waiting →
        Monitor.calls (Monitor.do_close true s) !! t = Some Monitor.Ready) ∧
  (∀ t, Monitor.calls s !! t = Some Monitor.Waiting →
        Monitor.calls s' !! t = Some Monitor.Ready ∨
        Monitor.calls s' !! t = Some (Monitor.Got None)) ∧
  (∀ t, Monitor.calls s' !! t = Some Monitor.Ready →
        Monitor.step s' (Monitor.do_test t s') ∧
        Monitor.calls (Monitor.do_test t s') !! t = Some (Monitor.Got None)) ∧
  (∀ t x, Monitor.calls s' !! t = Some (Monitor.Got (Some x)) →
          Monitor.calls s !! t = Some (Monitor.Got (Some x))) ∧
  (∃ s'', Monitor.steps (Monitor.do_close true s) s'' ∧
          ∀ t, Monitor.calls s !! t = Some Monitor.Waiting →
               Monitor.calls s'' !! t = Some (Monitor.Got None)).
Proof.
  intros Hreach.
  pose proof (drained_steps _ _ Hreach eq_refl eq_refl) as ([Hc Hb] & Hr).
  assert (∀ t, Monitor.calls s !! t = Some Monitor.Waiting →
        Monitor.calls (Monitor.do_close true s) !! t = Some Monitor.Ready)
    as Hwake.
  { intros t Ht. unfold Monitor.do_close. cbn [Monitor.calls].
    by rewrite notify_all_lookup, Ht. }
  split_and!; [done|done|exact Hwake|by auto| | |].
  - intros t Ht. split; [by apply Monitor.step_test|].
    rewrite do_test_drained by done. simpl.
    apply list_lookup_insert_eq. by eapply lookup_lt_Some.
  - intros t x Hl.
    destruct (closed_steps _ _ Hreach eq_refl) as (_ & _ & Hg).
    destruct (Hg _ _ Hl) as [Hl'|Hx]; [|by apply elem_of_nil in Hx].
    unfold Monitor.do_close in Hl'. cbn [Monitor.calls] in Hl'.
    rewrite notify_all_lookup in Hl'.
    by destruct (Monitor.calls s !! t) as [[| |r]|].
  - exists {| Monitor.queue := Queue.Cancel (Monitor.queue s);
              Monitor.calls :=
                (λ c, match c with
                      | Monitor.Ready => Monitor.Got None
                      | _ => c
                      end) <$> Monitor.notify_all (Monitor.calls s) |}.
    split.
    + apply (drained_finish (Queue.Cancel (Monitor.queue s)) []); [done..|].
      apply Forall_fmap, Forall_forall. by intros [| |r] _.
    + intros t Ht. cbn [Monitor.calls].
      by rewrite list_lookup_fmap, notify_all_lookup, Ht.
Qed.

Lemma Cancel_discards_and_wakes_witness :
  Monitor.calls
    (Monitor.do_close true
       {| Monitor.queue := {| Queue.is_closed_ := false;
                              Queue.buffer_ := [1; 2] |};
          Monitor.calls := [Monitor.Waiting; Monitor.Ready] |}) !! 0%nat
  = Some Monitor.Ready.
Proof.
  exact (proj1 (proj2 (proj2 (Cancel_discards_and_wakes
    {| Monitor.queue := {| Queue.is_closed_ := false;
                           Queue.buffer_ := [1; 2] |};
       Monitor.calls := [Monitor.Waiting; Monitor.Ready] |}
    _ (rtc_refl _ _)))) 0%nat eq_refl).
Defined.

(** ** The worker bodies *)
Section WorkerFacts.
Import Worker.

Lemma while_rule (I : merge_state → Prop) cond body :
  (∀ st, I st → cond st = true → I (body st)) →
  ∀ fuel st st', I st → while fuel cond body st = Some st' →
                 I st' ∧ cond st' = false.
Proof.
  intros Hbody. induction fuel as [|fuel IH]; intros st st' HI; simpl;
    destruct (cond st) eqn:Hcond; try done.
  - by intros [= <-].
  - intros Hw. by apply (IH (body st)); [apply Hbody|].
  - by intros [= <-].
Qed.

Lemma while_terminates (m : merge_state → nat) cond body :
  (∀ st, cond st = true → (m (body st) < m st)%nat) →
  ∀ fuel st, (m st ≤ fuel)%nat → is_Some (while fuel cond body st).
Proof.
  intros Hbody. induction fuel as [|fuel IH]; intros st Hm; simpl;
    destruct (cond st) eqn:Hcond; try done.
  - specialize (Hbody _ Hcond). lia.
  - apply IH. specialize (Hbody _ Hcond). lia.
Qed.

Lemma extract_remaining s v :
  eofbit s = false →
  remaining (extract s v).1 (extract s v).2 = pending s.
Proof.
  unfold extract, remaining. destruct s as [[|x rest] e]; simpl; [done|].
  by intros ->.
Qed.

Lemma rest1_read1 st : eofbit (istr1 st) = false →
  rest1 (read1 st) = pending (istr1 st) ∧ rest2 (read1 st) = rest2 st ∧
  ostr (read1 st) = ostr st.
Proof.
  intros He. unfold rest1, rest2, read1.
  pose proof (extract_remaining (istr1 st) (value1 st) He) as Hr.
  by destruct (extract (istr1 st) (value1 st)).
Qed.

Lemma rest2_read2 st : eofbit (istr2 st) = false →
  rest2 (read2 st) = pending (istr2 st) ∧ rest1 (read2 st) = rest1 st ∧
  ostr (read2 st) = ostr st.
Proof.
  intros He. unfold rest1, rest2, read2.
  pose proof (extract_remaining (istr2 st) (value2 st) He) as Hr.
  by destruct (extract (istr2 st) (value2 st)).
Qed.

(** One round of a loop that writes [value1] and reads the next. *)
Lemma emit1 st : eofbit (istr1 st) = false →
  ∃ p, rest1 st = value1 st :: p ∧
       rest1 (read1 (write (value1 st) st)) = p ∧
       rest2 (read1 (write (value1 st) st)) = rest2 st ∧
       ostr (read1 (write (value1 st) st)) = ostr st ++ [value1 st] ∧
       eofbit (istr2 (read1 (write (value1 st) st))) = eofbit (istr2 st).
Proof.
  intros He. exists (pending (istr1 st)).
  destruct (rest1_read1 (write (value1 st) st) He) as (H1 & H2 & H3).
  split_and!; [by unfold rest1, remaining; rewrite He|done..|].
  unfold read1. by destruct (extract _ _).
Qed.

Lemma emit2 st : eofbit (istr2 st) = false →
  ∃ p, rest2 st = value2 st :: p ∧
       rest2 (read2 (write (value2 st) st)) = p ∧
       rest1 (read2 (write (value2 st) st)) = rest1 st ∧
       ostr (read2 (write (value2 st) st)) = ostr st ++ [value2 st] ∧
       eofbit (istr1 (read2 (write (value2 st) st))) = eofbit (istr1 st).
Proof.
  intros He. exists (pending (istr2 st)).
  destruct (rest2_read2 (write (value2 st) st) He) as (H1 & H2 & H3).
  split_and!; [by unfold rest2, remaining; rewrite He|done..|].
  unfold read2. by destruct (extract _ _).
Qed.

Lemma ascending_emit (o : list Z) v p other :
  StronglySorted Z.le (o ++ v :: p) →
  StronglySorted Z.le (o ++ other) →
  Forall (Z.le v) other →
  StronglySorted Z.le ((o ++ [v]) ++ p) ∧
  StronglySorted Z.le ((o ++ [v]) ++ other).
Proof.
  intros H1 H2 Hv. split; [by rewrite <- app_assoc|].
  apply StronglySorted_app in H1 as (H1 & Ho & _).
  apply StronglySorted_app in H2 as (H2 & _ & Hother).
  apply StronglySorted_app. split_and!; [|apply StronglySorted_app|done].
  - intros x1 x2 [Hx1|Hx1%list_elem_of_singleton]%elem_of_app Hx2.
    + by apply H2.
    + subst x1. by apply (proj1 (Forall_forall _ _) Hv).
  - split_and!; [|done|repeat constructor].
    intros x1 x2 Hx1 ->%list_elem_of_singleton. apply H1; [done|].
    apply elem_of_cons. by left.
Qed.

Lemma Forall_le_head (o : list Z) v w l :
  v ≤ w → StronglySorted Z.le (o ++ w :: l) → Forall (Z.le v) (w :: l).
Proof.
  intros Hvw (_ & _ & [Hl _]%StronglySorted_cons)%StronglySorted_app.
  constructor; [done|]. eapply Forall_impl; [exact Hl|]. simpl. lia.
Qed.

(** The invariant of the three loops: what has been written followed by
    what is still to be written is the two inputs rearranged, and it is
    in ascending order along either input when the inputs are. *)
Lemma merge_inv_emit1 (c : list Z) st :
  eofbit (istr1 st) = false →
  ostr st ++ rest1 st ++ rest2 st ≡ₚ c →
  let st' := read1 (write (value1 st) st) in
  ostr st' ++ rest1 st' ++ rest2 st' ≡ₚ c ∧
  ((eofbit (istr2 st) = false → value1 st ≤ value2 st) →
   StronglySorted Z.le (ostr st ++ rest1 st) ∧
   StronglySorted Z.le (ostr st ++ rest2 st) →
   StronglySorted Z.le (ostr st' ++ rest1 st') ∧
   StronglySorted Z.le (ostr st' ++ rest2 st')) ∧
  (length (rest1 st') + length (rest2 st')
   < length (rest1 st) + length (rest2 st))%nat.
Proof.
  intros He Hperm st'. subst st'.
  destruct (emit1 st He) as (p & Hr1 & -> & -> & -> & _).
  rewrite Hr1 in *. split_and!.
  - by rewrite <- app_assoc.
  - intros Hle [H1 H2]. apply ascending_emit; [done..|].
    revert H2. unfold rest2, remaining.
    destruct (eofbit (istr2 st)); [constructor|].
    apply Forall_le_head. by apply Hle.
  - simpl. lia.
Qed.

Lemma merge_inv_emit2 (c : list Z) st :
  eofbit (istr2 st) = false →
  ostr st ++ rest1 st ++ rest2 st ≡ₚ c →
  let st' := read2 (write (value2 st) st) in
  ostr st' ++ rest1 st' ++ rest2 st' ≡ₚ c ∧
  ((eofbit (istr1 st) = false → value2 st ≤ value1 st) →
   StronglySorted Z.le (ostr st ++ rest1 st) ∧
   StronglySorted Z.le (ostr st ++ rest2 st) →
   StronglySorted Z.le (ostr st' ++ rest1 st') ∧
   StronglySorted Z.le (ostr st' ++ rest2 st')) ∧
  (length (rest1 st') + length (rest2 st')
   < length (rest1 st) + length (rest2 st))%nat.
Proof.
  intros He Hperm st'. subst st'.
  destruct (emit2 st He) as (p & Hr2 & -> & -> & -> & _).
  rewrite Hr2 in *. split_and!.
  - rewrite <- Hperm, <- app_assoc. apply Permutation_app_head. simpl.
    apply Permutation_middle.
  - intros Hle [H1 H2]. apply and_comm. apply ascending_emit; [done..|].
    revert H1. unfold rest1, remaining.
    destruct (eofbit (istr1 st)); [constructor|].
    apply Forall_le_head. by apply Hle.
  - simpl. lia.
Qed.

Lemma merge_start content1 content2 :
  let st0 := read2 (read1 {| istr1 := open content1; istr2 := open content2;
                             value1 := 0; value2 := 0; ostr := [] |}) in
  rest1 st0 = content1 ∧ rest2 st0 = content2 ∧ ostr st0 = [].
Proof. by destruct content1, content2. Qed.

Lemma merge_files_run fuel content1 content2 :
  (length content1 + length content2 ≤ fuel)%nat →
  ∃ merged, merge_files fuel content1 content2 = Some merged.
Proof.
  intros Hfuel. unfold merge_files.
  set (st0 := read2 (read1 _)).
  set (m := λ st, (length (rest1 st) + length (rest2 st))%nat).
  assert (m st0 ≤ fuel)%nat as H0.
  { destruct (merge_start content1 content2) as (R1 & R2 & _).
    subst m st0. simpl. by rewrite R1, R2. }
  assert (∀ st, both_open st = true → (m (merge_body st) < m st)%nat) as Hm.
  { intros st [He1 He2]%andb_true_iff.
    apply negb_true_iff in He1, He2. unfold merge_body. case_bool_decide.
    - by apply (merge_inv_emit1 (ostr st ++ rest1 st ++ rest2 st)).
    - by apply (merge_inv_emit2 (ostr st ++ rest1 st ++ rest2 st)). }
  assert (∀ st, open1 st = true → (m (drain1 st) < m st)%nat) as Hm1.
  { intros st He1%negb_true_iff.
    by apply (merge_inv_emit1 (ostr st ++ rest1 st ++ rest2 st)). }
  assert (∀ st, open2 st = true → (m (drain2 st) < m st)%nat) as Hm2.
  { intros st He2%negb_true_iff.
    by apply (merge_inv_emit2 (ostr st ++ rest1 st ++ rest2 st)). }
  destruct (while_terminates m _ _ Hm fuel st0 H0) as [st1 Hw1].
  rewrite Hw1. simpl.
  apply (while_rule (λ st, m st ≤ fuel)%nat) in Hw1 as [H1 _];
    [|intros st ? ?%Hm; lia|done].
  destruct (while_terminates m _ _ Hm1 fuel st1 H1) as [st2 Hw2].
  rewrite Hw2. simpl.
  apply (while_rule (λ st, m st ≤ fuel)%nat) in Hw2 as [H2 _];
    [|intros st ? ?%Hm1; lia|done].
  destruct (while_terminates m _ _ Hm2 fuel st2 H2) as [st3 Hw3].
  rewrite Hw3. simpl. by eexists.
Qed.

Lemma drain1_istr2 st : istr2 (drain1 st) = istr2 st.
Proof. unfold drain1, read1. by destruct (extract _ _). Qed.

Lemma drain2_istr1 st : istr1 (drain2 st) = istr1 st.
Proof. unfold drain2, read2. by destruct (extract _ _). Qed.

Lemma merge_files_spec fuel content1 content2 merged :
  merge_files fuel content1 content2 = Some merged →
  merged ≡ₚ content1 ++ content2 ∧
  (ascending content1 → ascending content2 → ascending merged).
Proof.
  unfold merge_files. set (st0 := read2 (read1 _)).
  set (I := λ st,
    ostr st ++ rest1 st ++ rest2 st ≡ₚ content1 ++ content2 ∧
    (StronglySorted Z.le content1 ∧ StronglySorted Z.le content2 →
     StronglySorted Z.le (ostr st ++ rest1 st) ∧
     StronglySorted Z.le (ostr st ++ rest2 st))).
  assert (I st0) as H0.
  { destruct (merge_start content1 content2) as (R1 & R2 & R3).
    subst I st0. simpl. by rewrite R1, R2, R3. }
  destruct (while fuel both_open merge_body st0) as [st1|] eqn:Hw1; [|done].
  simpl.
  destruct (while fuel open1 drain1 st1) as [st2|] eqn:Hw2; [|done]. simpl.
  destruct (while fuel open2 drain2 st2) as [st3|] eqn:Hw3; [|done]. simpl.
  intros [= <-].
  apply (while_rule I) in Hw1 as [H1 Hc1]; [| |done].
  2:{ intros st [Hp Hs] [He1 He2]%andb_true_iff.
      apply negb_true_iff in He1, He2. unfold merge_body.
      case_bool_decide as Hlt.
      - destruct (merge_inv_emit1 _ st He1 Hp) as (Hp' & Hs' & _).
        split; [done|]. intros Hc. apply Hs'; [lia|by apply Hs].
      - destruct (merge_inv_emit2 _ st He2 Hp) as (Hp' & Hs' & _).
        split; [done|]. intros Hc. apply Hs'; [lia|by apply Hs]. }
  apply (while_rule (λ st, I st ∧ (eofbit (istr1 st) = true ∨
                                   eofbit (istr2 st) = true)))
    in Hw2 as [[H2 _] Hc2].
  2:{ intros st [[Hp Hs] He] He1%negb_true_iff.
      destruct He as [He|He2]; [congruence|].
      destruct (merge_inv_emit1 _ st He1 Hp) as (Hp' & Hs' & _).
      split; [split; [done|]|].
      - intros Hc. apply Hs'; [congruence|by apply Hs].
      - right. by rewrite drain1_istr2. }
  2:{ split; [done|]. unfold both_open in Hc1.
      destruct (eofbit (istr1 st1)), (eofbit (istr2 st1)); by auto. }
  apply negb_false_iff in Hc2.
  apply (while_rule (λ st, I st ∧ eofbit (istr1 st) = true))
    in Hw3 as [[[Hp Hs] He1] He2%negb_false_iff]; [| |done].
  2:{ intros st [[Hp Hs] He] He2%negb_true_iff.
      destruct (merge_inv_emit2 _ st He2 Hp) as (Hp' & Hs' & _).
      split; [split; [done|]|].
      - intros Hc. apply Hs'; [congruence|by apply Hs].
      - by rewrite drain2_istr1. }
  unfold rest1, rest2, remaining in Hp, Hs. rewrite He1, He2 in Hp, Hs.
  rewrite !app_nil_r in Hp, Hs. split; [done|].
  unfold ascending. intros A1 A2. apply StronglySorted_Sorted, Hs.
  split; apply Sorted_StronglySorted; try done; apply _.
Qed.

Lemma ascending_std_sort numbers : ascending (std_sort numbers).
Proof. apply Sorted_merge_sort. apply _. Qed.

Lemma std_sort_Permutation numbers : std_sort numbers ≡ₚ numbers.
Proof. apply merge_sort_Permutation. Qed.

(** An ascending arrangement of given numbers is the one [std::sort]
    computes. *)
Lemma ascending_unique numbers arranged :
  ascending arranged → arranged ≡ₚ numbers → arranged = std_sort numbers.
Proof.
  intros Ha Hp. apply (Sorted_unique Z.le); [done|apply ascending_std_sort|].
  by rewrite Hp, std_sort_Permutation.
Qed.

End WorkerFacts.



(** ** Partitioning and the read loop *)
Section PartitionFacts.
Import Worker.

Lemma size_t_modulus_eq : size_t_modulus = 18446744073709551616.
Proof. reflexivity. Qed.

Lemma to_size_t_small x : 0 ≤ x < size_t_modulus → to_size_t x = x.
Proof. apply Z.mod_small. Qed.

Lemma to_size_t_range x : 0 ≤ to_size_t x < size_t_modulus.
Proof. apply Z.mod_pos_bound. by rewrite size_t_modulus_eq. Qed.

Lemma read_numbers_nonempty rest i max :
  i < max → read_numbers rest i max ≠ [].
Proof.
  intros Hi. destruct rest; simpl; by rewrite bool_decide_true.
Qed.

Lemma read_numbers_full rest i max :
  max - i ≤ Z.of_nat (length rest) →
  read_numbers rest i max = take (Z.to_nat (max - i)) rest.
Proof.
  revert i. induction rest as [|x rest IH]; intros i Hlen; simpl in *.
  - rewrite bool_decide_false by lia. by rewrite take_nil.
  - case_bool_decide as Hi.
    + rewrite IH by lia.
      replace (Z.to_nat (max - i)) with (S (Z.to_nat (max - (i + 1)))) by lia.
      done.
    + by replace (Z.to_nat (max - i)) with O by lia.
Qed.

Lemma read_numbers_short rest i max :
  Z.of_nat (length rest) < max - i →
  read_numbers rest i max = rest ++ [0].
Proof.
  revert i. induction rest as [|x rest IH]; intros i Hlen; simpl in *.
  - by rewrite bool_decide_true by lia.
  - rewrite bool_decide_true by lia. by rewrite IH by lia.
Qed.

Lemma ceil_div_le length batch_size i :
  1 ≤ batch_size → (ceil_div length batch_size ≤ i ↔ length ≤ batch_size * i).
Proof.
  intros HB. unfold ceil_div. split; intros H.
  - apply Z.nlt_ge. intros Hlt.
    assert (i + 1 ≤ (length + batch_size - 1) / batch_size); [|lia].
    apply Z.div_le_lower_bound; lia.
  - assert ((length + batch_size - 1) / batch_size < i + 1); [|lia].
    apply Z.div_lt_upper_bound; lia.
Qed.

Lemma ceil_div_bounds length batch_size :
  1 ≤ batch_size → 0 ≤ length →
  0 ≤ ceil_div length batch_size ≤ length / batch_size + 1.
Proof.
  intros HB HL. split.
  - apply Z.div_pos; lia.
  - apply ceil_div_le; [done|].
    pose proof (Z.mul_succ_div_gt length batch_size). lia.
Qed.

(** Whatever the sizes, the loop counts the tasks it starts, starts none
    at or beyond the end of the file, and hands each the batch size. *)
Lemma batch_loop_sound file_size batch_bytes batch_size :
  ∀ iterations i count,
    0 ≤ count → count + Z.of_nat iterations < size_t_modulus →
    let r := batch_loop file_size batch_bytes batch_size iterations i count in
    r.2 = count + Z.of_nat (length r.1) ∧
    (length r.1 ≤ iterations)%nat ∧
    Forall (λ task, 0 ≤ offset task < file_size ∧
                    max_numbers task = batch_size) r.1.
Proof.
  induction iterations as [|n IH]; intros i count Hc Hn; simpl.
  - split_and!; [lia|lia|constructor].
  - case_bool_decide as Hoff; simpl; [split_and!; [lia|lia|constructor]|].
    rewrite (to_size_t_small (count + 1)) by lia.
    specialize (IH (to_size_t (i + 1)) (count + 1)). simpl in IH.
    destruct (batch_loop _ _ _ n _ _) as [spawned c]. simpl in *.
    destruct IH as (-> & Hlen & Hall); [lia..|]. split_and!; [lia|lia|].
    constructor; [|done]. simpl.
    pose proof (to_size_t_range (i * batch_bytes)). lia.
Qed.

(** The loop starts the tasks of rounds [i] to
    [ceil_div file_size batch_bytes - 1]. *)
Lemma batch_loop_bytes file_size batch_bytes batch_size :
  1 ≤ batch_bytes → 0 ≤ file_size < size_t_modulus →
  ∀ iterations i,
    0 ≤ i ≤ ceil_div file_size batch_bytes →
    ceil_div file_size batch_bytes ≤ i + Z.of_nat iterations
      ≤ file_size / batch_bytes + 1 →
    batch_loop file_size batch_bytes batch_size iterations i i
    = (task_at batch_bytes batch_size
         <$> seqZ i (ceil_div file_size batch_bytes - i),
       ceil_div file_size batch_bytes).
Proof.
  intros HB Hfs. rewrite size_t_modulus_eq in *.
  induction iterations as [|n IH]; intros i Hi Hn; simpl.
  - replace i with (ceil_div file_size batch_bytes) by lia.
    by rewrite Z.sub_diag.
  - assert (batch_bytes * i ≤ file_size) as Hfit.
    { assert (i ≤ file_size / batch_bytes) as Hq by lia.
      pose proof (Z.mul_div_le file_size batch_bytes). nia. }
    rewrite (to_size_t_small (i * _))
      by (rewrite size_t_modulus_eq; nia).
    case_bool_decide as Hoff.
    + assert (ceil_div file_size batch_bytes ≤ i)
        by (apply ceil_div_le; lia).
      replace i with (ceil_div file_size batch_bytes) by lia.
      by rewrite Z.sub_diag.
    + assert (¬ ceil_div file_size batch_bytes ≤ i) as Hlt.
      { rewrite ceil_div_le by done. lia. }
      rewrite !(to_size_t_small (i + 1)) by (rewrite size_t_modulus_eq; nia).
      rewrite IH by lia.
      rewrite (seqZ_cons i) by lia. simpl.
      by replace (Z.pred (ceil_div file_size batch_bytes - i))
        with (ceil_div file_size batch_bytes - Z.succ i) by lia.
Qed.

(** [batch_bytes] is a multiple of [sizeof(int)], also when it wraps. *)
Lemma batch_bytes_multiple batch_size :
  to_size_t (batch_size * sizeof_int) = batch_size mod 2 ^ 62 * sizeof_int.
Proof.
  unfold to_size_t, sizeof_int.
  change size_t_modulus with (2 ^ 62 * 4).
  by rewrite Z.mul_mod_distr_r by lia.
Qed.

Lemma SortBatchFiles_bytes file_size batch_size :
  is_size_t file_size →
  let batch_bytes := to_size_t (batch_size * sizeof_int) in
  batch_bytes ≠ 0 →
  SortBatchFiles file_size batch_size
  = Some (task_at batch_bytes batch_size
            <$> seqZ 0 (ceil_div file_size batch_bytes),
          ceil_div file_size batch_bytes).
Proof.
  intros Hfs batch_bytes Hbb. unfold SortBatchFiles. fold batch_bytes.
  rewrite bool_decide_false by done.
  assert (4 ≤ batch_bytes) as H4.
  { subst batch_bytes. rewrite batch_bytes_multiple in *.
    pose proof (Z.mod_pos_bound batch_size (2 ^ 62) ltac:(lia)).
    unfold sizeof_int in *. lia. }
  unfold is_size_t in Hfs. rewrite size_t_modulus_eq in Hfs.
  pose proof (ceil_div_bounds file_size batch_bytes ltac:(lia) ltac:(lia))
    as Hc.
  assert (0 ≤ file_size / batch_bytes ≤ file_size / 4) as Hq.
  { split; [apply Z.div_pos; lia|].
    apply Z.div_le_lower_bound; [lia|].
    pose proof (Z.mul_div_le file_size batch_bytes). nia. }
  assert (file_size / 4 < 4611686018427387904)
    by (apply Z.div_lt_upper_bound; lia).
  rewrite to_size_t_small by (rewrite size_t_modulus_eq; lia).
  rewrite (batch_loop_bytes file_size batch_bytes batch_size)
    by (rewrite ?size_t_modulus_eq; lia).
  by rewrite Z.sub_0_r.
Qed.

Lemma ceil_div_bytes length batch_size :
  1 ≤ batch_size →
  ceil_div (sizeof_int * length) (batch_size * sizeof_int)
  = ceil_div length batch_size.
Proof.
  intros HB. unfold sizeof_int. apply Z.le_antisymm.
  - apply ceil_div_le; [lia|].
    assert (length ≤ batch_size * ceil_div length batch_size); [|lia].
    by apply ceil_div_le.
  - apply ceil_div_le; [lia|].
    assert (4 * length ≤ batch_size * 4 * ceil_div (4 * length) (batch_size * 4));
      [|lia].
    apply ceil_div_le; lia.
Qed.

Lemma SortBatchFiles_exact length batch_size :
  1 ≤ batch_size → batch_size * sizeof_int < size_t_modulus →
  0 ≤ length → sizeof_int * length < size_t_modulus →
  SortBatchFiles (sizeof_int * length) batch_size
  = Some (chunk_task batch_size <$> seqZ 0 (ceil_div length batch_size),
          ceil_div length batch_size).
Proof.
  intros HB HBw HL HLw.
  assert (to_size_t (batch_size * sizeof_int) = batch_size * sizeof_int)
    as Hbb by (apply to_size_t_small; unfold sizeof_int in *; lia).
  rewrite SortBatchFiles_bytes;
    [|unfold is_size_t, sizeof_int in *; lia
     |rewrite Hbb; unfold sizeof_int; lia].
  by rewrite Hbb, ceil_div_bytes.
Qed.

Lemma SortBatchFiles_sound file_size batch_size running count :
  is_size_t batch_size →
  SortBatchFiles file_size batch_size = Some (running, count) →
  1 ≤ batch_size ∧
  count = Z.of_nat (length running) ∧ 0 ≤ count < size_t_modulus ∧
  Forall (λ task, 0 ≤ offset task < file_size ∧
                  max_numbers task = batch_size) running.
Proof.
  intros [Hb0 Hb1]. unfold SortBatchFiles. case_bool_decide as Hbb; [done|].
  intros [= Hloop].
  assert (1 ≤ batch_size) as HB.
  { destruct (decide (batch_size = 0)) as [->|]; [|lia]. done. }
  pose proof (to_size_t_range
    (file_size / to_size_t (batch_size * sizeof_int) + 1)) as Hbound.
  pose proof (batch_loop_sound file_size
    (to_size_t (batch_size * sizeof_int)) batch_size
    (Z.to_nat (to_size_t
       (file_size / to_size_t (batch_size * sizeof_int) + 1))) 0 0) as Hs.
  simpl in Hs. rewrite Hloop in Hs. simpl in Hs.
  destruct Hs as (-> & Hlen & Hall); [lia..|]. split_and!; try done; lia.
Qed.

Lemma seekg_chunk input batch_size i :
  1 ≤ batch_size → 0 ≤ i →
  seekg input (offset (chunk_task batch_size i))
  = drop (Z.to_nat (i * batch_size)) input.
Proof.
  intros HB Hi. unfold seekg, chunk_task, task_at, sizeof_int. simpl.
  by rewrite Z.mul_assoc, Z.div_mul by lia.
Qed.

Lemma numbers_for_sort_full input batch_size i :
  1 ≤ batch_size → 0 ≤ i →
  (i + 1) * batch_size ≤ Z.of_nat (length input) →
  numbers_for_sort input (chunk_task batch_size i)
  = take (Z.to_nat batch_size) (drop (Z.to_nat (i * batch_size)) input).
Proof.
  intros HB Hi Hlen. unfold numbers_for_sort. rewrite seekg_chunk by done.
  simpl. rewrite read_numbers_full; [by rewrite Z.sub_0_r|].
  rewrite length_drop. lia.
Qed.

Lemma numbers_for_sort_short input batch_size i :
  1 ≤ batch_size → 0 ≤ i →
  Z.of_nat (length input) < (i + 1) * batch_size →
  numbers_for_sort input (chunk_task batch_size i)
  = drop (Z.to_nat (i * batch_size)) input ++ [0].
Proof.
  intros HB Hi Hlen. unfold numbers_for_sort. rewrite seekg_chunk by done.
  simpl. rewrite read_numbers_short; [done|].
  rewrite length_drop. lia.
Qed.

(** The numbers the sorters of rounds [i] to the last read, one after the
    other, are the input from chunk [i] on, followed by the [0] of the
    failing read if there is one. *)
Lemma chunks_from input batch_size :
  1 ≤ batch_size →
  let len := Z.of_nat (length input) in
  ∀ (n : nat) i,
    0 ≤ i → i + Z.of_nat (S n) = ceil_div len batch_size →
    concat (numbers_for_sort input <$>
              (chunk_task batch_size <$> seqZ i (Z.of_nat (S n))))
    = drop (Z.to_nat (i * batch_size)) input
      ++ end_of_file_zero len batch_size.
Proof.
  intros HB len. assert (len = Z.of_nat (length input)) as Hlen0 by done.
  clearbody len. induction n as [|n IH]; intros i Hi HN.
  - assert (¬ ceil_div len batch_size ≤ i) as Hlt by lia.
    rewrite ceil_div_le in Hlt by done.
    assert (ceil_div len batch_size ≤ i + 1) as Hle by lia.
    rewrite ceil_div_le in Hle by done.
    change (seqZ i (Z.of_nat 1)) with [i]. simpl. rewrite app_nil_r.
    unfold end_of_file_zero. case_bool_decide as Hmod.
    + assert (len = (i + 1) * batch_size) as Hlen.
      { apply Z.mod_divide in Hmod as [k Hk]; [|lia].
        assert (i < k) by nia. assert (k ≤ i + 1) by nia.
        by replace (i + 1) with k by lia. }
      rewrite numbers_for_sort_full by (done || lia).
      rewrite take_ge, app_nil_r; [done|]. rewrite length_drop. lia.
    + rewrite numbers_for_sort_short; [done..|].
      destruct (decide (len = (i + 1) * batch_size)) as [Heq|]; [|lia].
      destruct Hmod. rewrite Heq. by apply Z.mod_mul; lia.
  - assert (¬ ceil_div len batch_size ≤ i + 1) as Hlt by lia.
    rewrite ceil_div_le in Hlt by done.
    rewrite (seqZ_cons i) by lia. rewrite !fmap_cons. cbn [concat].
    replace (Z.pred (Z.of_nat (S (S n)))) with (Z.of_nat (S n)) by lia.
    rewrite (IH (Z.succ i)) by lia.
    rewrite numbers_for_sort_full by (done || lia).
    rewrite app_assoc. f_equal.
    replace (Z.to_nat (Z.succ i * batch_size))
      with (Z.to_nat (i * batch_size) + Z.to_nat batch_size)%nat by lia.
    rewrite <- drop_drop. apply take_drop.
Qed.

Lemma chunks_all input batch_size :
  1 ≤ batch_size →
  let len := Z.of_nat (length input) in
  concat (numbers_for_sort input <$>
            (chunk_task batch_size <$> seqZ 0 (ceil_div len batch_size)))
  = input ++ end_of_file_zero len batch_size.
Proof.
  intros HB len. assert (len = Z.of_nat (length input)) as Hlen0 by done.
  pose proof (chunks_from input batch_size HB) as Hfrom. simpl in Hfrom.
  clearbody len. rewrite <- Hlen0 in Hfrom.
  pose proof (ceil_div_bounds len batch_size HB ltac:(lia)) as [HN _].
  destruct (Z.to_nat (ceil_div len batch_size)) as [|n] eqn:En.
  - assert (ceil_div len batch_size = 0) as H0 by lia. rewrite H0.
    assert (ceil_div len batch_size ≤ 0) as Hle by lia.
    rewrite ceil_div_le in Hle by done.
    assert (input = []) as -> by (apply length_zero_iff_nil; lia).
    rewrite Hlen0. unfold end_of_file_zero. cbn [length Z.of_nat].
    by rewrite bool_decide_true by (by rewrite Z.mod_0_l by lia).
  - replace (ceil_div len batch_size) with (Z.of_nat (S n)) by lia.
    by rewrite Hfrom by lia.
Qed.
End PartitionFacts.

(** C10.  With [batch_size = 0] the loop bound of [SortBatchFiles]
    divides by [batch_bytes = 0]; this is how [main] calls it when
    [atoi] returns [0].  So the function has a result only if
    [batch_size >= 1]; more precisely, it has none exactly when
    [batch_size * sizeof(int)] is [0] in [size_t]. *)
Theorem SortBatchFiles_needs_positive_batch (input : list Z)
    (files : gmap Z (list Z)) (file_size batch_size : Z) :
  Worker.SortBatchFiles file_size 0 = None ∧
  Pipeline.main_start input 0 files = None ∧
  (Worker.SortBatchFiles file_size batch_size = None ↔
   to_size_t (batch_size * sizeof_int) = 0) ∧
  (is_size_t batch_size →
   is_Some (Worker.SortBatchFiles file_size batch_size) → 1 ≤ batch_size).
Proof.
  split_and!; [done|done| |].
  - unfold Worker.SortBatchFiles. by case_bool_decide.
  - intros Hb [[running count] Hs].
    by destruct (SortBatchFiles_sound _ _ _ _ Hb Hs).
Qed.

Lemma SortBatchFiles_needs_positive_batch_witness :
  Worker.SortBatchFiles 12 0 = None ∧ 1 ≤ 2.
Proof.
  split.
  - exact (proj1 (SortBatchFiles_needs_positive_batch [] ∅ 12 2)).
  - refine (proj2 (proj2 (proj2
      (SortBatchFiles_needs_positive_batch [] ∅ 12 2))) _ _).
    + unfold is_size_t. rewrite size_t_modulus_eq. lia.
    + vm_compute. eexists. reflexivity.
Defined.




(** ** The pipeline *)
Section PipelineFacts.
Import Worker Pipeline.
Variable input : list Z.
Implicit Types (s : state) (files : gmap Z (list Z)).

Lemma sorted_numbers_nonempty task :
  0 < max_numbers task → sorted_numbers input task ≠ [].
Proof.
  intros Hmax Hnil.
  apply (read_numbers_nonempty (seekg input (offset task)) 0 _ Hmax).
  apply Permutation_nil. fold (numbers_for_sort input task).
  rewrite <- (std_sort_Permutation (numbers_for_sort input task)).
  fold (sorted_numbers input task). by rewrite Hnil.
Qed.

Lemma SorterRoutine_publishes task files q :
  0 < max_numbers task → Queue.is_closed_ q = false →
  SorterRoutine input task files q
  = (<[offset task := sorted_numbers input task]> files,
     {| Queue.is_closed_ := false;
        Queue.buffer_ := Queue.buffer_ q ++ [offset task] |}).
Proof.
  intros Hmax Hq. unfold SorterRoutine.
  pose proof (sorted_numbers_nonempty task Hmax).
  destruct (sorted_numbers input task) eqn:E; [done|].
  by rewrite (Put_open _ _ Hq).
Qed.

Lemma MergeRoutine_inv fuel task files q files' q' :
  Queue.is_closed_ q = false →
  MergeRoutine fuel task files q = Some (files', q') →
  ∃ content1 content2 merged,
    <[id task := []]> files !! filename1 task = Some content1 ∧
    <[id task := []]> files !! filename2 task = Some content2 ∧
    merge_files fuel content1 content2 = Some merged ∧
    files' = <[id task := merged]> files ∧
    q' = {| Queue.is_closed_ := false;
            Queue.buffer_ := Queue.buffer_ q ++ [id task] |}.
Proof.
  intros Hq. unfold MergeRoutine.
  destruct (_ !! filename1 task) as [c1|]; [|done].
  destruct (_ !! filename2 task) as [c2|]; [|done]. simpl.
  destruct (merge_files fuel c1 c2) as [merged|] eqn:Hmerged; [|done]. simpl.
  rewrite (Put_open _ _ Hq). simpl. intros [= <- <-].
  by exists c1, c2, merged.
Qed.

Lemma main_take_name_inv q f q' :
  main_take q (Some f) q' →
  Queue.buffer_ q = f :: Queue.buffer_ q' ∧
  Queue.is_closed_ q' = Queue.is_closed_ q.
Proof.
  inversion 1 as [f' q'' HT|]; subst.
  by destruct (Take_Returns_inv _ _ _ HT).
Qed.

Lemma main_take_nullopt_inv q q' :
  main_take q None q' → Queue.is_closed_ q = true.
Proof.
  inversion 1 as [|q'' HT]; subst.
  by destruct (Take_Returns_inv _ _ _ HT) as (_ & _ & ? & _).
Qed.

Lemma main_take_front q f rest :
  Queue.buffer_ q = f :: rest →
  main_take q (Some f)
            {| Queue.is_closed_ := Queue.is_closed_ q;
               Queue.buffer_ := rest |}.
Proof. intros Hb. constructor. by apply Take_front. Qed.

Lemma inputs_app ms1 ms2 : inputs (ms1 ++ ms2) = inputs ms1 ++ inputs ms2.
Proof. apply bind_app. Qed.

Lemma inputs_cons task ms :
  inputs (task :: ms) = [filename1 task; filename2 task] ++ inputs ms.
Proof. done. Qed.

Lemma numbers_of_app files l1 l2 :
  numbers_of files (l1 ++ l2) = numbers_of files l1 ++ numbers_of files l2.
Proof. apply bind_app. Qed.

Lemma numbers_of_singleton files f : numbers_of files [f] = run_of files f.
Proof. unfold numbers_of. simpl. apply app_nil_r. Qed.

Lemma run_of_insert files f c : run_of (<[f := c]> files) f = c.
Proof. unfold run_of. by rewrite lookup_insert_eq. Qed.

Lemma run_of_insert_ne files f g c :
  f ≠ g → run_of (<[f := c]> files) g = run_of files g.
Proof. intros Hne. unfold run_of. by rewrite lookup_insert_ne. Qed.

Lemma numbers_of_insert files f c names :
  f ∉ names → numbers_of (<[f := c]> files) names = numbers_of files names.
Proof.
  induction names as [|g names IH]; [done|].
  intros [Hne Hnot]%not_elem_of_cons. unfold numbers_of in *.
  rewrite !bind_cons, IH by done. by rewrite run_of_insert_ne.
Qed.

Global Instance numbers_of_Permutation files :
  Proper ((≡ₚ) ==> (≡ₚ)) (numbers_of files).
Proof. intros l1 l2 Hl. unfold numbers_of. by rewrite Hl. Qed.

(** Every step keeps the count of runs. *)
Lemma counts_step s e s' : counts s → step input s e s' → counts s'.
Proof.
  intros (Hopen & Hexp & Hmax & Hfiles) Hstep. unfold counts, expects, pool, live in *.
  destruct Hstep as
    [s before task after files' q' Hs HR
    |s before task after fuel files' q' Hm HR
    |s tc id f q' Hmain Htc [Hb Hc]%main_take_name_inv
    |s tc id f1 f q' Hmain [Hb Hc]%main_take_name_inv
    |s tc id f1 f2 Hmain task
    |s tc id f q' Hmain Htc [Hb Hc]%main_take_name_inv
    |s q' Hmain Hnull%main_take_nullopt_inv]; simpl in *.
  - rewrite SorterRoutine_publishes in HR; [|apply Hmax; rewrite Hs|done].
    2:{ apply elem_of_app. right. apply elem_of_cons. by left. }
    injection HR as <- <-. simpl. rewrite Hs in *. split_and!.
    + done.
    + rewrite !length_app in *. simpl in *.
      destruct (main s); simpl in *; try done; split_and?; lia.
    + intros t Ht. apply Hmax. set_solver.
    + intros f Hf. destruct (decide (offset task = f)) as [<-|Hne].
      * by rewrite lookup_insert_eq.
      * rewrite lookup_insert_ne by done. apply Hfiles. set_solver.
  - apply MergeRoutine_inv in HR
      as (c1 & c2 & merged & _ & _ & _ & -> & ->); [|done].
    simpl. rewrite Hm in *. split_and!.
    + done.
    + rewrite !length_app in *. simpl in *.
      destruct (main s); simpl in *; try done; split_and?; lia.
    + done.
    + intros f Hf. destruct (decide (id task = f)) as [<-|Hne].
      * by rewrite lookup_insert_eq.
      * rewrite lookup_insert_ne by done. apply Hfiles.
        rewrite inputs_app, inputs_cons in *. set_solver.
  - rewrite Hmain in *. rewrite Hb in *. simpl in *.
    rewrite to_size_t_small by lia.
    split_and!; try (done || congruence || lia).
    intros g Hg. apply Hfiles. set_solver.
  - rewrite Hmain in *. rewrite Hb in *. simpl in *.
    split_and!; try (done || congruence || lia).
    intros g Hg. apply Hfiles. set_solver.
  - rewrite Hmain in *. simpl in *. rewrite length_app. simpl.
    split_and!; try (done || lia).
    intros g Hg. apply Hfiles. rewrite inputs_app in Hg. set_solver.
  - rewrite Hmain in *. rewrite Hb in *. simpl in *.
    split_and!; try (done || congruence || lia).
    intros g Hg. apply Hfiles. set_solver.
  - congruence.
Qed.

(** A worker that has read the runs [used] leaves a run [c] under the
    name [out] and publishes it. *)
Lemma contents_publish target s s' used rest out c owed_now :
  contents input target s →
  main s' = main s →
  files s' = <[out := c]> (files s) →
  live s ≡ₚ used ++ rest →
  live s' ≡ₚ rest ++ [out] →
  outputs s ≡ₚ out :: outputs s' →
  ascending c →
  c ≡ₚ numbers_of (files s) used ++ owed_now →
  concat (sorted_numbers input <$> sorters s)
    ≡ₚ owed_now ++ concat (sorted_numbers input <$> sorters s') →
  contents input target s'.
Proof.
  intros (Hnd & Hout & Hfresh & Hasc & Hnum) Hmain Hfiles Hlive Hlive' Houts
         Hc Hcnum Howed.
  assert ((out ∉ outputs s') ∧ NoDup (outputs s')) as [Hnew Hnd'].
  { apply NoDup_cons. by rewrite <- Houts. }
  assert (out ∉ live s) as Hnotlive.
  { apply Hout. rewrite Houts. set_solver. }
  assert (out ∉ rest) as Hnotrest.
  { intros Hin. apply Hnotlive. rewrite Hlive. set_solver. }
  unfold contents. split_and!.
  - done.
  - intros f Hf. rewrite Hlive'. intros [Hin| ->%list_elem_of_singleton]%elem_of_app;
      [|done].
    apply (Hout f); [rewrite Houts|rewrite Hlive]; set_solver.
  - unfold names_fresh in *. rewrite Hmain.
    destruct (launches_left (main s)) as [[id todo]|]; [|done].
    destruct Hfresh as (H1 & H2 & H3). split_and!; [done..|].
    intros f Hf. apply H3. rewrite Hlive' in Hf. rewrite Hlive, Houts.
    set_solver.
  - intros f. rewrite Hlive', Hfiles.
    intros [Hin| ->%list_elem_of_singleton]%elem_of_app.
    + rewrite run_of_insert_ne by (intros ->; done).
      apply Hasc. rewrite Hlive. set_solver.
    + by rewrite run_of_insert.
  - rewrite Hlive', Hfiles, numbers_of_app, numbers_of_singleton.
    rewrite numbers_of_insert, run_of_insert by done.
    rewrite <- Hnum, Hlive, numbers_of_app, Howed, Hcnum. aac_reflexivity.
Qed.

(** A step of [main] that moves names between the queue and its own
    variables. *)
Lemma contents_main target s s' :
  contents input target s →
  files s' = files s → sorters s' = sorters s →
  live s' ≡ₚ live s → outputs s' = outputs s →
  names_fresh s' →
  contents input target s'.
Proof.
  intros (Hnd & Hout & _ & Hasc & Hnum) Hfiles Hsorters Hlive Houts Hfresh.
  unfold contents. rewrite Hfiles, Hsorters, Houts. split_and!; try done.
  - intros f Hf. rewrite Hlive. by apply Hout.
  - intros f. rewrite Hlive. apply Hasc.
  - by rewrite Hlive.
Qed.

Lemma int_pred_in_range id : INT_MIN < id ≤ INT_MAX → int_pred id = id - 1.
Proof.
  unfold int_pred, int_wrap, INT_MIN, INT_MAX. intros Hid.
  rewrite Z.mod_small; lia.
Qed.

(** Every step keeps the contents of the runs in flight. *)
Lemma contents_step target s e s' :
  counts s → contents input target s → step input s e s' →
  contents input target s'.
Proof.
  intros (Hopen & Hexp & Hmax & Hfiles) Hcont Hstep.
  destruct Hstep as
    [s before task after files' q' Hs HR
    |s before task after fuel files' q' Hm HR
    |s tc id f q' Hmain Htc [Hb Hc]%main_take_name_inv
    |s tc id f1 f q' Hmain [Hb Hc]%main_take_name_inv
    |s tc id f1 f2 Hmain task
    |s tc id f q' Hmain Htc [Hb Hc]%main_take_name_inv
    |s q' Hmain Hnull%main_take_nullopt_inv].
  - rewrite SorterRoutine_publishes in HR; [|apply Hmax; rewrite Hs|done].
    2:{ set_solver. }
    injection HR as <- <-.
    apply (contents_publish target s _ [] (live s) (offset task)
             (sorted_numbers input task) (sorted_numbers input task));
      try done.
    + unfold live. simpl. aac_reflexivity.
    + unfold outputs. simpl. rewrite Hs, !fmap_app, fmap_cons. rearrange.
    + apply ascending_std_sort.
    + simpl. rewrite Hs, !fmap_app, fmap_cons, !concat_app. simpl.
      aac_reflexivity.
  - apply MergeRoutine_inv in HR
      as (c1 & c2 & merged & H1 & H2 & Hmerge & -> & ->); [|done].
    destruct Hcont as (Hnd & Hout & Hfresh & Hasc & Hnum).
    assert (id task ∈ outputs s) as Hid.
    { unfold outputs. rewrite Hm. set_solver. }
    assert (filename1 task ∈ live s ∧ filename2 task ∈ live s) as [Hl1 Hl2].
    { unfold live. rewrite Hm, inputs_app, inputs_cons. set_solver. }
    rewrite lookup_insert_ne in H1 by (intros Heq; apply (Hout _ Hid); congruence).
    rewrite lookup_insert_ne in H2 by (intros Heq; apply (Hout _ Hid); congruence).
    pose proof (Hasc _ Hl1) as A1. pose proof (Hasc _ Hl2) as A2.
    unfold run_of in A1, A2. rewrite H1 in A1. rewrite H2 in A2. simpl in A1, A2.
    destruct (merge_files_spec _ _ _ _ Hmerge) as [Hperm Hasc'].
    apply (contents_publish target s _ [filename1 task; filename2 task]
             (Queue.buffer_ (sorted_parts s) ++ held (main s)
              ++ inputs (before ++ after))
             (id task) merged []); try done.
    + unfold live. rewrite Hm, !inputs_app, inputs_cons. aac_reflexivity.
    + unfold live. simpl. aac_reflexivity.
    + unfold outputs. simpl. rewrite Hm, !fmap_app, fmap_cons. rearrange.
    + by apply Hasc'.
    + rewrite Hperm, app_nil_r. unfold numbers_of, run_of. simpl.
      by rewrite H1, H2, app_nil_r.
  - apply (contents_main target s); try done.
    + unfold live. simpl. rewrite Hmain, Hb. simpl. rearrange.
    + destruct Hcont as (_ & _ & Hfresh & _). unfold names_fresh in *.
      unfold expects in Hexp. rewrite Hmain in *. simpl in *.
      rewrite to_size_t_small by lia.
      destruct Hfresh as (? & ? & Hall). split_and!; [done..|].
      intros g Hg. apply Hall. unfold live, outputs in *. simpl in *.
      rewrite Hmain, Hb. set_solver.
  - apply (contents_main target s); try done.
    + unfold live. simpl. rewrite Hmain, Hb. simpl. rearrange.
    + destruct Hcont as (_ & _ & Hfresh & _). unfold names_fresh in *.
      rewrite Hmain in *. simpl in *.
      destruct Hfresh as (? & ? & Hall). split_and!; [done..|].
      intros g Hg. apply Hall. unfold live, outputs in *. simpl in *.
      rewrite Hmain, Hb. set_solver.
  - destruct Hcont as (Hnd & Hout & Hfresh & Hasc & Hnum).
    unfold names_fresh, expects in *. rewrite Hmain in *. simpl in *.
    destruct Hfresh as (Hmin & Hneg & Hall).
    assert (int_pred id = id - 1) as Hpred.
    { apply int_pred_in_range. unfold INT_MAX, INT_MIN in *. lia. }
    assert (live
      {| sorted_parts := sorted_parts s; files := files s;
         sorters := sorters s; mergers := mergers s ++ [task];
         main := AtLoop tc (int_pred id) |} ≡ₚ live s) as Hlive.
    { unfold live. cbn [sorted_parts main mergers held].
      rewrite Hmain, inputs_app. cbn [held].
      change (inputs [task]) with [f1; f2]. rearrange. }
    assert (int_pred id ∉ live s ++ outputs s) as Hnew.
    { intros Hin%Hall. lia. }
    unfold contents, names_fresh. simpl. split_and!.
    + unfold outputs in *. simpl. rewrite fmap_app, app_assoc. simpl.
      apply NoDup_app. split_and!; [done| |apply NoDup_singleton].
      intros g Hg ->%list_elem_of_singleton. apply Hnew. set_solver.
    + intros g Hg. rewrite Hlive. unfold outputs in *. simpl in Hg.
      rewrite fmap_app in Hg. simpl in Hg.
      destruct (decide (g = int_pred id)) as [->|Hne]; [set_solver|].
      apply Hout. set_solver.
    + lia.
    + lia.
    + intros g. rewrite Hlive. unfold outputs. simpl. rewrite fmap_app.
      simpl. intros Hg.
      destruct (decide (g = int_pred id)) as [->|Hne]; [lia|].
      assert (id ≤ g); [apply Hall; unfold outputs; set_solver|lia].
    + intros g. rewrite Hlive. apply Hasc.
    + by rewrite Hlive.
  - apply (contents_main target s); try done.
    unfold live. simpl. rewrite Hmain, Hb. simpl. rearrange.
  - congruence.
Qed.

(** Every step uses up some of the steps that are left. *)
Lemma steps_left_step s e s' :
  step input s e s' → (steps_left s' < steps_left s)%nat.
Proof.
  unfold steps_left.
  destruct 1 as
    [s before task after files' q' Hs HR
    |s before task after fuel files' q' Hm HR
    |s tc id f q' Hmain Htc _
    |s tc id f1 f q' Hmain _
    |s tc id f1 f2 Hmain task
    |s tc id f q' Hmain Htc _
    |s q' Hmain _]; simpl.
  - rewrite Hs, !length_app. simpl. lia.
  - rewrite Hm, !length_app. simpl. lia.
  - rewrite Hmain. simpl.
    assert (to_size_t (tc - 1) ≤ tc - 1); [|lia].
    apply Z.mod_le; [lia|by rewrite size_t_modulus_eq].
  - rewrite Hmain. simpl. lia.
  - rewrite Hmain, length_app. simpl. lia.
  - rewrite Hmain. simpl. lia.
  - destruct Hmain as [(tc & id & ->)|(tc & id & f1 & ->)]; simpl; lia.
Qed.

Lemma exec_bounded s tr s' :
  exec input s tr s' → (length tr + steps_left s' ≤ steps_left s)%nat.
Proof.
  induction 1 as [|tr s1 e s2 _ IH Hstep]; [simpl; lia|].
  apply steps_left_step in Hstep. rewrite length_app. simpl. lia.
Qed.

Lemma exec_counts s tr s' : counts s → exec input s tr s' → counts s'.
Proof.
  intros Hc. induction 1 as [|tr s1 e s2 _ IH Hstep]; [done|].
  by eapply counts_step.
Qed.

Lemma exec_contents target s tr s' :
  counts s → contents input target s → exec input s tr s' →
  contents input target s'.
Proof.
  intros Hc Hcont. induction 1 as [|tr s1 e s2 Hex IH Hstep]; [done|].
  eapply contents_step; [|done..]. by eapply exec_counts.
Qed.

(** As long as [main] has no result some thread can take a step. *)
Lemma counts_progress s :
  counts s → (∀ f, main s ≠ Finished f) → ∃ e s', step input s e s'.
Proof.
  intros (Hopen & Hexp & Hmax & Hfiles) Hrun.
  destruct (sorters s) as [|task after] eqn:Hs.
  2:{ eexists _, _. eapply (step_SorterRoutine _ _ [] task after); [done|].
      apply SorterRoutine_publishes; [|done]. apply Hmax. set_solver. }
  destruct (mergers s) as [|task after] eqn:Hm.
  2:{ assert (is_Some (files s !! filename1 task)) as [c1 H1].
      { apply Hfiles. unfold live. rewrite Hm, inputs_cons. set_solver. }
      assert (is_Some (files s !! filename2 task)) as [c2 H2].
      { apply Hfiles. unfold live. rewrite Hm, inputs_cons. set_solver. }
      assert (∃ c1', <[id task := []]> (files s) !! filename1 task = Some c1')
        as [c1' H1'].
      { destruct (decide (id task = filename1 task)) as [->|];
          [rewrite lookup_insert_eq|rewrite lookup_insert_ne by done];
          by eexists. }
      assert (∃ c2', <[id task := []]> (files s) !! filename2 task = Some c2')
        as [c2' H2'].
      { destruct (decide (id task = filename2 task)) as [->|];
          [rewrite lookup_insert_eq|rewrite lookup_insert_ne by done];
          by eexists. }
      destruct (merge_files_run (length c1' + length c2') c1' c2' ltac:(lia))
        as [merged Hmerged].
      eexists _, _.
      eapply (step_MergeRoutine _ _ [] task after (length c1' + length c2'));
        [done|].
      unfold MergeRoutine. rewrite H1', H2'. simpl. rewrite Hmerged. done. }
  unfold expects, pool in Hexp. rewrite Hs, Hm in Hexp. simpl in Hexp.
  destruct (main s) as [tc id|tc id f1|tc id f1 f2|f|] eqn:Hmain;
    [| | |by destruct (Hrun f)|done].
  - destruct (Queue.buffer_ (sorted_parts s)) as [|f rest] eqn:Hb;
      [simpl in Hexp; lia|].
    destruct (decide (1 < tc)).
    + eexists _, _. eapply step_MergeBatchFiles_Take1; [done..|].
      by apply main_take_front.
    + eexists _, _. eapply step_MergeBatchFiles_return; [done..|].
      by apply main_take_front.
  - destruct (Queue.buffer_ (sorted_parts s)) as [|f rest] eqn:Hb;
      [simpl in Hexp; lia|].
    eexists _, _. eapply step_MergeBatchFiles_Take2; [done|].
    by apply main_take_front.
  - eexists _, _. by eapply step_MergeBatchFiles_thread.
Qed.

(** Every step keeps the books. *)
Lemma accounts_step runs running tr s e s' :
  counts s → accounts runs running tr s → step input s e s' →
  accounts runs running (tr ++ [e]) s'.
Proof.
  intros (Hopen & Hexp & Hmax & Hfiles) (Hprog & Htakes & Hpub & Hmerges & Hsorts)
         Hstep.
  unfold accounts, progress_of, launches, takes, published, merges_done,
    sorts_done in *.
  rewrite !omap_app.
  destruct Hstep as
    [s before task after files' q' Hs HR
    |s before task after fuel files' q' Hm HR
    |s tc id f q' Hmain Htc [Hb Hc]%main_take_name_inv
    |s tc id f1 f q' Hmain [Hb Hc]%main_take_name_inv
    |s tc id f1 f2 Hmain task
    |s tc id f q' Hmain Htc [Hb Hc]%main_take_name_inv
    |s q' Hmain Hnull%main_take_nullopt_inv]; simpl in *;
    rewrite ?app_nil_r.
  - rewrite SorterRoutine_publishes in HR; [|apply Hmax; rewrite Hs|done].
    2:{ set_solver. }
    injection HR as <- <-. simpl. split_and!; try done.
    + by rewrite app_assoc, Hpub.
    + rewrite <- Hsorts, Hs. rearrange.
  - apply MergeRoutine_inv in HR
      as (c1 & c2 & merged & _ & _ & _ & -> & ->); [|done].
    simpl. split_and!; try done.
    + by rewrite app_assoc, Hpub.
    + rewrite <- Hmerges, Hm. rearrange.
  - unfold expects in Hexp. rewrite Hmain in *. simpl in *.
    rewrite to_size_t_small by lia. rewrite app_nil_r in Htakes.
    split_and!; try done; try lia.
    + by rewrite Htakes.
    + by rewrite <- Hpub, Hb, <- app_assoc.
  - rewrite Hmain in *. simpl in *. split_and!; try done; try lia.
    + by rewrite Htakes, <- app_assoc.
    + by rewrite <- Hpub, Hb, <- app_assoc.
  - rewrite Hmain in *. simpl in *. rewrite length_app. simpl.
    split_and!; try done; try lia.
    + by rewrite inputs_app.
    + rewrite <- Hmerges. aac_reflexivity.
  - unfold expects in Hexp. rewrite Hmain in *. simpl in *.
    rewrite app_nil_r in Htakes.
    split_and!; try done; try lia.
    + by rewrite Htakes.
    + by rewrite <- Hpub, Hb, <- app_assoc.
  - congruence.
Qed.

Lemma exec_accounts runs running s tr s' :
  counts s → accounts runs running [] s → exec input s tr s' →
  accounts runs running tr s'.
Proof.
  intros Hc Hacc. induction 1 as [|tr s1 e s2 Hex IH Hstep]; [done|].
  eapply accounts_step; [|done..]. by eapply exec_counts.
Qed.

(** The state in which [MergeBatchFiles] is entered. *)
Lemma counts_enter files running runs :
  runs = Z.of_nat (length running) → 1 ≤ runs < size_t_modulus →
  (∀ task, task ∈ running → 0 < max_numbers task) →
  counts (enter_MergeBatchFiles Queue.new_queue files running runs).
Proof.
  intros -> Hruns Hmax. unfold counts, expects, pool, live. simpl.
  split_and!; try done; try lia. set_solver.
Qed.

Lemma accounts_enter files running runs :
  accounts runs running []
           (enter_MergeBatchFiles Queue.new_queue files running runs).
Proof. unfold accounts, progress_of. simpl. split_and!; done || lia. Qed.

Lemma concat_sorted_numbers (running : list SortTask) :
  concat (sorted_numbers input <$> running)
  ≡ₚ concat (numbers_for_sort input <$> running).
Proof.
  induction running as [|task running IH]; [done|].
  rewrite !fmap_cons. simpl. rewrite IH. unfold sorted_numbers.
  by rewrite std_sort_Permutation.
Qed.

Lemma exec_app s tr1 s1 tr2 s2 :
  exec input s tr1 s1 → exec input s1 tr2 s2 → exec input s (tr1 ++ tr2) s2.
Proof.
  intros H1. induction 1 as [|tr s' e s'' _ IH Hstep].
  - by rewrite app_nil_r.
  - rewrite app_assoc. by eapply exec_snoc.
Qed.

Lemma exec_step s e s' : step input s e s' → exec input s [e] s'.
Proof. intros Hstep. apply (exec_snoc input s [] s); [constructor|done]. Qed.

(** With runs to reduce, every state can be run on until [main] has its
    result. *)
Lemma counts_finishes s :
  counts s → ∃ tr s' f, exec input s tr s' ∧ main s' = Finished f.
Proof.
  remember (steps_left s) as n eqn:Hn. revert s Hn.
  induction (lt_wf n) as [n _ IH]. intros s -> Hc.
  destruct (main s) as [tc id|tc id f1|tc id f1 f2|f|] eqn:Hmain.
  4:{ exists [], s, f. split; [constructor|done]. }
  4:{ destruct Hc as (_ & Hexp & _). unfold expects in Hexp.
      by rewrite Hmain in Hexp. }
  all: destruct (counts_progress s Hc) as (e & s1 & Hstep);
    [intros f; congruence|].
  all: destruct (IH (steps_left s1) (steps_left_step _ _ _ Hstep) s1 eq_refl
                    (counts_step _ _ _ Hc Hstep)) as (tr & s' & f & Hex & Hf).
  all: exists ([e] ++ tr), s', f; split; [|done].
  all: eapply exec_app; [by apply exec_step|done].
Qed.

(** Entered with no runs, an open and empty queue and no thread that
    could fill it, [MergeBatchFiles] never gets anywhere. *)
Lemma no_runs_no_step files s e s' :
  s = enter_MergeBatchFiles Queue.new_queue files [] 0 →
  ¬ step input s e s'.
Proof.
  intros -> Hstep. inversion Hstep as
    [s before task after files' q' Hs HR
    |s before task after fuel files' q' Hm HR
    |s tc id f q' Hmain Htc Htake
    |s tc id f1 f q' Hmain Htake
    |s tc id f1 f2 Hmain task
    |s tc id f q' Hmain Htc Htake
    |s q' Hmain Htake]; subst; simpl in *.
  - by destruct before.
  - by destruct before.
  - injection Hmain as <- <-. lia.
  - done.
  - done.
  - by inversion Htake.
  - by inversion Htake.
Qed.

Lemma no_runs_stuck files tr s :
  exec input (enter_MergeBatchFiles Queue.new_queue files [] 0) tr s →
  tr = [] ∧ s = enter_MergeBatchFiles Queue.new_queue files [] 0.
Proof.
  induction 1 as [|tr s1 e s2 _ [-> ->] Hstep]; [done|].
  by destruct (no_runs_no_step files _ e s2 eq_refl).
Qed.

Lemma contents_enter files batch_size :
  1 ≤ batch_size →
  let chunks := ceil_div (Z.of_nat (length input)) batch_size in
  chunks ≤ 2 ^ 31 →
  contents input
    (input ++ end_of_file_zero (Z.of_nat (length input)) batch_size)
    (enter_MergeBatchFiles Queue.new_queue files
       (chunk_task batch_size <$> seqZ 0 chunks) chunks).
Proof.
  intros HB chunks Hchunks.
  assert (∀ f, f ∈ offset <$> (chunk_task batch_size <$> seqZ 0 chunks) →
               0 ≤ f) as Hpos.
  { intros f (task & -> & (i & -> & Hi%elem_of_seqZ)%list_elem_of_fmap)
             %list_elem_of_fmap.
    unfold chunk_task, task_at, sizeof_int. simpl. nia. }
  unfold contents, names_fresh, live, outputs. simpl.
  rewrite !app_nil_r. split_and!.
  - rewrite <- list_fmap_compose. apply NoDup_fmap_2_strong; [|apply NoDup_seqZ].
    intros i j _ _. unfold chunk_task, task_at, sizeof_int. simpl. nia.
  - set_solver.
  - unfold INT_MIN. lia.
  - done.
  - intros f Hf%Hpos. lia.
  - set_solver.
  - rewrite concat_sorted_numbers. by rewrite chunks_all.
Qed.

Lemma main_start_int atoi_argv2 files :
  1 ≤ atoi_argv2 ≤ INT_MAX → file_size input < size_t_modulus →
  let chunks := ceil_div (Z.of_nat (length input)) atoi_argv2 in
  main_start input atoi_argv2 files
  = Some (enter_MergeBatchFiles Queue.new_queue files
            (chunk_task atoi_argv2 <$> seqZ 0 chunks) chunks).
Proof.
  intros Hb Hfs chunks. unfold main_start, INT_MAX in *.
  rewrite to_size_t_small by (rewrite size_t_modulus_eq; lia).
  unfold file_size in *.
  rewrite SortBatchFiles_exact;
    [done|lia|rewrite size_t_modulus_eq; unfold sizeof_int; lia|lia|done].
Qed.

(** The whole run of [main] on a non-empty input, for a batch size that
    [atoi] can return and fewer than [2^31] chunks. *)
Lemma pipeline_total atoi_argv2 files :
  1 ≤ atoi_argv2 ≤ INT_MAX → file_size input < size_t_modulus →
  ceil_div (Z.of_nat (length input)) atoi_argv2 ≤ 2 ^ 31 →
  input ≠ [] →
  ∃ s0,
    main_start input atoi_argv2 files = Some s0 ∧
    (∀ tr s, exec input s0 tr s → (length tr ≤ steps_left s0)%nat) ∧
    (∀ tr s, exec input s0 tr s →
       ∃ tr' s' f, exec input s0 (tr ++ tr') s' ∧ main s' = Finished f) ∧
    (∀ tr s f, exec input s0 tr s → main s = Finished f →
       Pipeline.files s !! f
       = Some (std_sort
                 (input ++ end_of_file_zero (Z.of_nat (length input))
                                            atoi_argv2))).
Proof.
  intros Hb Hfs Hchunks Hne.
  eexists. split; [by apply main_start_int|].
  set (chunks := ceil_div (Z.of_nat (length input)) atoi_argv2) in *.
  set (s0 := enter_MergeBatchFiles _ _ _ _).
  assert (1 ≤ chunks) as Hone.
  { destruct (decide (1 ≤ chunks)) as [|Hle]; [done|].
    assert (chunks ≤ 0) as H0 by lia.
    apply ceil_div_le in H0; [|lia]. destruct input; [done|simpl in H0; lia]. }
  assert (counts s0) as Hc.
  { apply counts_enter.
    - rewrite length_fmap, length_seqZ. lia.
    - rewrite size_t_modulus_eq. lia.
    - intros task (i & -> & _)%list_elem_of_fmap. simpl. lia. }
  assert (contents input
            (input ++ end_of_file_zero (Z.of_nat (length input)) atoi_argv2)
            s0) as Hcont.
  { apply contents_enter; [lia|done]. }
  split_and!.
  - intros tr s Hex. apply exec_bounded in Hex. lia.
  - intros tr s Hex.
    destruct (counts_finishes s (exec_counts _ _ _ Hc Hex))
      as (tr' & s' & f & Hex' & Hf).
    exists tr', s', f. split; [by eapply exec_app|done].
  - intros tr s f Hex Hf.
    destruct (exec_counts _ _ _ Hc Hex) as (_ & Hexp & _ & Hfiles).
    destruct (exec_contents _ _ _ _ Hc Hcont Hex) as (_ & _ & _ & Hasc & Hnum).
    unfold expects, pool in Hexp. rewrite Hf in Hexp.
    assert (Queue.buffer_ (sorted_parts s) = [] ∧ sorters s = [] ∧
            mergers s = []) as (Hb0 & Hs0 & Hm0).
    { split_and!; apply length_zero_iff_nil; lia. }
    unfold live in *. rewrite Hf, Hb0, Hm0, ?Hs0 in *. simpl in *.
    destruct (Hfiles f ltac:(set_solver)) as [run Hrun].
    specialize (Hasc f ltac:(set_solver)).
    unfold numbers_of in Hnum. simpl in Hnum. rewrite !app_nil_r in Hnum.
    unfold run_of in *. rewrite Hrun in *. simpl in *.
    by rewrite (ascending_unique _ _ Hasc Hnum).
Qed.
End PipelineFacts.

(** C1, on the code.  The two scenarios the specification works out,
    [[7]] with batch size [10] and [[5; 3; 4; 1; 2]] with batch size [2],
    end with a last chunk that is not full: every execution comes to an
    end, and the run [main] then names holds the input in ascending order
    and a [0] that the input does not have. *)
Theorem pipeline_adds_a_zero :
  (∃ s0, Pipeline.main_start [7] 10 ∅ = Some s0 ∧
     (∀ tr s, Pipeline.exec [7] s0 tr s →
        ∃ tr' s' f, Pipeline.exec [7] s0 (tr ++ tr') s' ∧
                    Pipeline.main s' = Pipeline.Finished f) ∧
     (∀ tr s f, Pipeline.exec [7] s0 tr s →
        Pipeline.main s = Pipeline.Finished f →
        Pipeline.files s !! f = Some [0; 7])) ∧
  (∃ s0, Pipeline.main_start [5; 3; 4; 1; 2] 2 ∅ = Some s0 ∧
     (∀ tr s, Pipeline.exec [5; 3; 4; 1; 2] s0 tr s →
        ∃ tr' s' f, Pipeline.exec [5; 3; 4; 1; 2] s0 (tr ++ tr') s' ∧
                    Pipeline.main s' = Pipeline.Finished f) ∧
     (∀ tr s f, Pipeline.exec [5; 3; 4; 1; 2] s0 tr s →
        Pipeline.main s = Pipeline.Finished f →
        Pipeline.files s !! f = Some [0; 1; 2; 3; 4; 5])).
Proof.
  split.
  - destruct (pipeline_total [7] 10 ∅) as (s0 & Hs0 & _ & Hfin & Hres);
      [by unfold INT_MAX; lia|by vm_compute|by vm_compute|done|].
    exists s0. split_and!; [done..|]. intros tr s f Hex Hf.
    by rewrite (Hres tr s f Hex Hf).
  - destruct (pipeline_total [5; 3; 4; 1; 2] 2 ∅)
      as (s0 & Hs0 & _ & Hfin & Hres);
      [by unfold INT_MAX; lia|by vm_compute|by vm_compute|done|].
    exists s0. split_and!; [done..|]. intros tr s f Hex Hf.
    by rewrite (Hres tr s f Hex Hf).
Qed.



Lemma published_split tr :
  Pipeline.published tr
  ≡ₚ (Worker.offset <$> Pipeline.sorts_done tr)
     ++ (Worker.id <$> Pipeline.merges_done tr).
Proof.
  induction tr as [|e tr IH]; [done|].
  unfold Pipeline.published, Pipeline.sorts_done, Pipeline.merges_done in *.
  destruct e; csimpl; rewrite ?IH; try done.
  apply Permutation_middle.
Qed.



(** C8.  On an empty input [SortBatchFiles] starts no sorter and returns
    [0]; [MergeBatchFiles] then launches no merger and calls [Take] on
    the empty, open queue, which blocks; no thread can ever take a step,
    so the call never returns and [main] never has a result. *)
Theorem empty_input_blocks_forever (atoi_argv2 : Z)
    (dir : gmap Z (list Z)) (tr : list Pipeline.event) (s : Pipeline.state) :
  1 ≤ atoi_argv2 ≤ INT_MAX →
  let s0 := Pipeline.enter_MergeBatchFiles Queue.new_queue dir [] 0 in
  Pipeline.exec [] s0 tr s →
  Worker.SortBatchFiles (Worker.file_size []) (to_size_t atoi_argv2)
  = Some ([], 0) ∧
  Pipeline.main_start [] atoi_argv2 dir = Some s0 ∧
  Pipeline.main s0 = Pipeline.AtLoop 0 (-1) ∧
  Queue.is_closed_ (Pipeline.sorted_parts s0) = false ∧
  Queue.Take (Pipeline.sorted_parts s0) = Queue.Blocks ∧
  tr = [] ∧ s = s0 ∧
  Pipeline.launches tr = [] ∧
  (∀ f, Pipeline.main s ≠ Pipeline.Finished f) ∧
  (∀ e s', ¬ Pipeline.step [] s e s').
Proof.
  intros Hb s0 Hex.
  destruct (no_runs_stuck [] dir tr s Hex) as [-> ->].
  pose proof (main_start_int [] atoi_argv2 dir Hb ltac:(by vm_compute))
    as Hstart.
  assert (Worker.ceil_div 0 atoi_argv2 = 0) as Hzero.
  { unfold Worker.ceil_div. apply Z.div_small. lia. }
  cbv zeta in Hstart. change (Z.of_nat (length [])) with 0 in Hstart.
  rewrite Hzero in Hstart. change (seqZ 0 0) with (@nil Z) in Hstart.
  rewrite fmap_nil in Hstart.
  split_and!; try done.
  - unfold Pipeline.main_start in Hstart.
    destruct (Worker.SortBatchFiles _ _) as [[running count]|]; [|done].
    simpl in Hstart. by injection Hstart as -> ->.
  - intros e s'. by apply (no_runs_no_step [] dir).
Qed.

Lemma empty_input_blocks_forever_witness :
  Pipeline.main_start [] 10 ∅
  = Some (Pipeline.enter_MergeBatchFiles Queue.new_queue ∅ [] 0) ∧
  Queue.Take (T := Z) Queue.new_queue = Queue.Blocks.
Proof.
  assert (1 ≤ 10 ≤ INT_MAX) as H1 by (unfold INT_MAX; lia).
  destruct (empty_input_blocks_forever 10 ∅ [] _ H1 (Pipeline.exec_nil _ _))
    as (_ & Hstart & _ & _ & Hblocks & _).
  exact (conj Hstart Hblocks).
Defined.



(** The single-element scenario run by hand: the sorter runs, [main]
    takes its name and returns it; the file holds the [0] as well. *)
Example single_element_execution :
  ∃ s,
    Pipeline.exec [7]
      (Pipeline.enter_MergeBatchFiles Queue.new_queue ∅
         [Worker.chunk_task 10 0] 1)
      [Pipeline.SorterRan (Worker.chunk_task 10 0); Pipeline.Took 0] s ∧
    Pipeline.main s = Pipeline.Finished 0 ∧
    Pipeline.files s !! 0 = Some [0; 7] ∧
    Worker.numbers_for_sort [7] (Worker.chunk_task 10 0) = [7; 0].
Proof.
  eexists. split_and!.
  - eapply (Pipeline.exec_snoc _ _ [_]).
    + eapply (Pipeline.exec_snoc _ _ []); [apply Pipeline.exec_nil|].
      by eapply (Pipeline.step_SorterRoutine _ _ [] _ []).
    + eapply Pipeline.step_MergeBatchFiles_return; [done|simpl; lia|].
      by constructor.
  - done.
  - done.
  - done.
Qed.

Lemma exec_cons input s e s1 tr s2 :
  Pipeline.step input s e s1 → Pipeline.exec input s1 tr s2 →
  Pipeline.exec input s (e :: tr) s2.
Proof.
  intros Hstep Hex. apply (exec_app input s [e] s1 tr s2); [|done].
  by apply exec_step.
Qed.

(** The five-element scenario run by hand, with the merges in the order
    the specification lists them: the last run is the one of id [-3] and
    holds six numbers. *)
Example five_element_execution :
  let t0 := Worker.chunk_task 2 0 in
  let t1 := Worker.chunk_task 2 1 in
  let t2 := Worker.chunk_task 2 2 in
  let m1 := {| Worker.filename1 := 0; Worker.filename2 := 8;
               Worker.id := -2 |} in
  let m2 := {| Worker.filename1 := 16; Worker.filename2 := -2;
               Worker.id := -3 |} in
  ∃ s,
    Pipeline.exec [5; 3; 4; 1; 2]
      (Pipeline.enter_MergeBatchFiles Queue.new_queue ∅ [t0; t1; t2] 3)
      [Pipeline.SorterRan t0; Pipeline.SorterRan t1;
       Pipeline.Took 0; Pipeline.Took 8; Pipeline.Launched m1;
       Pipeline.SorterRan t2; Pipeline.MergerRan m1;
       Pipeline.Took 16; Pipeline.Took (-2); Pipeline.Launched m2;
       Pipeline.MergerRan m2; Pipeline.Took (-3)] s ∧
    Pipeline.main s = Pipeline.Finished (-3) ∧
    Pipeline.files s !! 0 = Some [3; 5] ∧
    Pipeline.files s !! 8 = Some [1; 4] ∧
    Pipeline.files s !! 16 = Some [0; 2] ∧
    Pipeline.files s !! (-2) = Some [1; 3; 4; 5] ∧
    Pipeline.files s !! (-3) = Some [0; 1; 2; 3; 4; 5].
Proof.
  intros t0 t1 t2 m1 m2. eexists. split.
  - repeat (eapply exec_cons;
      [first
         [ by eapply (Pipeline.step_SorterRoutine _ _ [] _ _)
         | eapply (Pipeline.step_MergeRoutine _ _ [] _ _ 10%nat);
           [reflexivity|vm_compute; reflexivity]
         | eapply Pipeline.step_MergeBatchFiles_Take1;
           [reflexivity|simpl; lia|by constructor]
         | eapply Pipeline.step_MergeBatchFiles_Take2;
           [reflexivity|by constructor]
         | lazymatch goal with
           | |- Pipeline.step _ ?s (Pipeline.Launched _) _ =>
               let pc := eval vm_compute in (Pipeline.main s) in
               lazymatch pc with
               | Pipeline.TookBoth ?tc ?id ?f1 ?f2 =>
                   exact (Pipeline.step_MergeBatchFiles_thread
                            _ s tc id f1 f2 eq_refl)
               end
           end
         | eapply Pipeline.step_MergeBatchFiles_return;
           [reflexivity|simpl; lia|by constructor] ]
      |];
      lazymatch goal with
      | |- Pipeline.exec ?i ?s ?tr ?s2 =>
          let s' := eval vm_compute in s in
          change (Pipeline.exec i s' tr s2)
      end).
    apply Pipeline.exec_nil.
  - by vm_compute.
Qed.

(** * Further properties of the code *)

(** ** Histories of calls on the queue *)
Section HistoryFacts.
Context {T : Type}.
Implicit Types (q : Queue.UnboundedBlockingQueue T)
               (calls : list (History.call T)).
Import Queue History.

Lemma run_closed calls q :
  is_closed_ q = true →
  accepted (run calls q) = [] ∧ is_closed_ (final (run calls q)) = true ∧
  taken (run calls q) `prefix_of` buffer_ q.
Proof.
  revert q. induction calls as [|c calls IH]; intros q Hc.
  - simpl. split_and!; [done..|]. apply prefix_nil.
  - destruct c as [v| | |]; simpl.
    + rewrite (Put_closed v q Hc). simpl. by apply IH.
    + destruct (Take q) as [|[x|] q'] eqn:HT; [by apply IH|..].
      * apply Take_Returns_inv in HT as [Hc' Hb]. simpl.
        destruct (IH q' ltac:(congruence)) as (Ha & Hf & Hp).
        split_and!; [done..|]. rewrite Hb. by apply prefix_cons.
      * apply Take_Returns_inv in HT as [Hc' (Hb & _ & ->)]. simpl.
        by apply IH.
    + by apply (IH (Close q)).
    + destruct (IH (Cancel q) eq_refl) as (Ha & Hf & Hp).
      split_and!; [done..|]. simpl in Hp. apply prefix_nil_inv in Hp.
      rewrite Hp. apply prefix_nil.
Qed.

Lemma run_fifo calls q :
  taken (run calls q) `prefix_of` buffer_ q ++ accepted (run calls q) ∧
  ((∀ c, c ∈ calls → is_cancel c = false) →
   taken (run calls q) ++ buffer_ (final (run calls q))
   = buffer_ q ++ accepted (run calls q)).
Proof.
  revert q. induction calls as [|c calls IH]; intros q.
  - simpl. split; [apply prefix_nil|]. by rewrite app_nil_r.
  - destruct c as [v| | |]; simpl.
    + unfold Put. destruct (is_closed_ q) eqn:Hc; simpl.
      * destruct (IH q) as [Hp He]. split; [done|]. intros Hnc.
        apply He. intros c Hin. apply Hnc. set_solver.
      * destruct (IH {| is_closed_ := false; buffer_ := buffer_ q ++ [v] |})
          as [Hp He]. simpl in *. rewrite <- app_assoc in Hp, He.
        split; [done|]. intros Hnc. apply He. intros c Hin. apply Hnc.
        set_solver.
    + destruct (Take q) as [|[x|] q'] eqn:HT.
      * destruct (IH q) as [Hp He]. split; [done|]. intros Hnc.
        apply He. intros c Hin. apply Hnc. set_solver.
      * apply Take_Returns_inv in HT as [Hc' Hb]. simpl.
        destruct (IH q') as [Hp He]. rewrite Hb. simpl.
        split; [by apply prefix_cons|]. intros Hnc. f_equal.
        apply He. intros c Hin. apply Hnc. set_solver.
      * apply Take_Returns_inv in HT as [Hc' (Hb & _ & ->)]. simpl.
        destruct (IH q) as [Hp He]. split; [done|]. intros Hnc.
        apply He. intros c Hin. apply Hnc. set_solver.
    + destruct (IH (Close q)) as [Hp He]. split; [done|]. intros Hnc.
      apply He. intros c Hin. apply Hnc. set_solver.
    + split.
      * destruct (run_closed calls (Cancel q) eq_refl) as (_ & _ & Hp).
        simpl in Hp. apply prefix_nil_inv in Hp. rewrite Hp.
        apply prefix_nil.
      * intros Hnc. specialize (Hnc CallCancel ltac:(set_solver)). done.
Qed.
End HistoryFacts.

(** X1.  In every history of calls on a fresh queue the values [Take]
    returned are, in order, the first of the values [Put] accepted: none
    is returned twice, none is invented, none overtakes another.  If the
    history has no [Cancel] then the values returned followed by the
    values still in the buffer are all the values accepted, so none is
    lost either. *)
Theorem queue_history_fifo {T : Type} (calls : list (History.call T)) :
  let o := History.run calls Queue.new_queue in
  History.taken o `prefix_of` History.accepted o ∧
  ((∀ c, c ∈ calls → History.is_cancel c = false) →
   History.taken o ++ Queue.buffer_ (History.final o) = History.accepted o).
Proof. exact (run_fifo calls Queue.new_queue). Qed.

(** ** Wake-ups *)
Section WakeupFacts.
Context {T : Type}.
Implicit Types (s : Monitor.state T) (cs : list (Monitor.call T))
               (p : Monitor.call T → bool).
Import Queue Monitor Wakeups.

Lemma count_app p cs1 cs2 :
  count p (cs1 ++ cs2) = (count p cs1 + count p cs2)%nat.
Proof. induction cs1 as [|c cs1 IH]; simpl; [done|]. rewrite IH. lia. Qed.

Lemma count_insert p cs t old new :
  cs !! t = Some old →
  (count p (<[t := new]> cs) + (if p old then 1 else 0)
   = count p cs + (if p new then 1 else 0))%nat.
Proof.
  revert t. induction cs as [|c cs IH]; intros [|t] Hl; simpl in *; try done.
  - injection Hl as ->. lia.
  - specialize (IH t Hl). lia.
Qed.

Lemma count_notify_all cs :
  count is_waiting (notify_all cs) = 0%nat ∧
  count is_ready (notify_all cs)
  = (count is_ready cs + count is_waiting cs)%nat.
Proof.
  unfold notify_all. induction cs as [|c cs [IH1 IH2]]; [done|].
  rewrite fmap_cons. simpl. rewrite IH1, IH2. destruct c; simpl; lia.
Qed.

Lemma count_zero_lookup p cs t c :
  count p cs = 0%nat → cs !! t = Some c → p c = false.
Proof.
  revert t. induction cs as [|c' cs IH]; intros [|t] H0 Hl; simpl in *;
    try done.
  - injection Hl as ->. destruct (p c); [lia|done].
  - apply (IH t); [|done]. destruct (p c'); lia.
Qed.

Lemma count_pos_lookup p cs :
  (0 < count p cs)%nat → ∃ t c, cs !! t = Some c ∧ p c = true.
Proof.
  induction cs as [|c cs IH]; simpl; [lia|].
  destruct (p c) eqn:Hp; [by exists O, c|].
  intros Hpos. destruct (IH ltac:(lia)) as (t & c' & Hl & Hc).
  by exists (S t), c'.
Qed.

Lemma no_lost_wakeup_step s s' :
  step s s' → no_lost_wakeup s → no_lost_wakeup s'.
Proof.
  unfold no_lost_wakeup.
  destruct 1 as [s|s t Ht|s t Ht|s v b q' cs' HP Hn|s|s]; simpl.
  - rewrite !count_app. simpl. destruct (is_closed_ (queue s)); lia.
  - pose proof (count_insert is_waiting (calls s) t Ready) as Hw.
    pose proof (count_insert is_ready (calls s) t Ready) as Hr.
    unfold do_test, Take, must_wait.
    destruct (queue s) as [closed [|x rest]]; simpl in *.
    + destruct closed; simpl.
      * specialize (Hw (Got None) Ht). simpl in Hw. lia.
      * specialize (Hr Waiting Ht). simpl in Hr. lia.
    + specialize (Hw (Got (Some x)) Ht). specialize (Hr (Got (Some x)) Ht).
      simpl in *. destruct closed; lia.
  - pose proof (count_insert is_waiting (calls s) t Waiting Ready Ht) as Hw.
    pose proof (count_insert is_ready (calls s) t Waiting Ready Ht) as Hr.
    simpl in *. destruct (is_closed_ (queue s)); lia.
  - unfold Put in HP. destruct (is_closed_ (queue s)) eqn:Hc.
    + injection HP as <- <-. subst cs'. by rewrite Hc.
    + injection HP as <- <-. simpl. rewrite length_app. simpl.
      destruct Hn as [Hnone|t Ht].
      * intros _. left.
        destruct (count is_waiting (calls s)) eqn:Hcount; [done|].
        destruct (count_pos_lookup is_waiting (calls s) ltac:(lia))
          as (t & [| |r] & Hl & Hp); try done.
        by destruct (Hnone t).
      * pose proof (count_insert is_waiting (calls s) t Waiting Ready Ht).
        pose proof (count_insert is_ready (calls s) t Waiting Ready Ht).
        simpl in *. lia.
  - intros _. by destruct (count_notify_all (calls s)).
  - intros _. by destruct (count_notify_all (calls s)).
Qed.

Lemma no_lost_wakeup_steps s s' :
  steps s s' → no_lost_wakeup s → no_lost_wakeup s'.
Proof.
  induction 1 as [|s s1 s2 Hstep _ IH]; [done|].
  intros Hs. by apply IH, (no_lost_wakeup_step s).
Qed.
End WakeupFacts.

(** X2.  No wake-up is lost.  In every state the shared queue can reach
    from its construction: once it is closed no call of [Take] is
    suspended; and while a call is suspended with items in the buffer,
    at least as many calls are awake as there are items, so one of them
    is about to run and will be handed the head of the buffer. *)
Theorem Take_wakeups_not_lost {T : Type} (s : Monitor.state T) :
  Monitor.steps Wakeups.fresh s →
  Wakeups.no_lost_wakeup s ∧
  (Queue.is_closed_ (Monitor.queue s) = true →
   ∀ t, Monitor.calls s !! t ≠ Some Monitor.Waiting) ∧
  (∀ t x rest,
     Monitor.calls s !! t = Some Monitor.Waiting →
     Queue.buffer_ (Monitor.queue s) = x :: rest →
     ∃ t', Monitor.calls s !! t' = Some Monitor.Ready ∧
           Monitor.step s (Monitor.do_test t' s) ∧
           Monitor.calls (Monitor.do_test t' s) !! t'
           = Some (Monitor.Got (Some x))).
Proof.
  intros Hreach.
  assert (Wakeups.no_lost_wakeup s) as Hinv.
  { apply (no_lost_wakeup_steps _ _ Hreach). by left. }
  split_and!; [done| |].
  - intros Hc t Ht. unfold Wakeups.no_lost_wakeup in Hinv.
    rewrite Hc in Hinv.
    by pose proof (count_zero_lookup _ _ _ _ Hinv Ht).
  - intros t x rest Ht Hb. unfold Wakeups.no_lost_wakeup in Hinv.
    destruct (Queue.is_closed_ (Monitor.queue s)) eqn:Hc.
    { by pose proof (count_zero_lookup _ _ _ _ Hinv Ht). }
    destruct Hinv as [Hnone|Hready].
    { by pose proof (count_zero_lookup _ _ _ _ Hnone Ht). }
    rewrite Hb in Hready. simpl in Hready.
    destruct (count_pos_lookup Wakeups.is_ready (Monitor.calls s)
                ltac:(lia)) as (t' & [| |r] & Hl & Hp); try done.
    exists t'. split_and!; [done|by apply Monitor.step_test|].
    unfold Monitor.do_test. rewrite (Take_front _ x rest Hb). simpl.
    apply list_lookup_insert_eq. by eapply lookup_lt_Some.
Qed.

Lemma Take_wakeups_not_lost_witness :
  Wakeups.no_lost_wakeup
    (Monitor.do_test 0
       {| Monitor.queue := Queue.new_queue (T := Z);
          Monitor.calls := [Monitor.Ready] |}).
Proof.
  refine (proj1 (Take_wakeups_not_lost _ _)).
  eapply rtc_l; [apply (Monitor.step_call_Take Wakeups.fresh)|].
  eapply rtc_l; [|apply rtc_refl].
  apply (Monitor.step_test
           {| Monitor.queue := Queue.new_queue;
              Monitor.calls := [Monitor.Ready] |} 0).
  reflexivity.
Defined.

Lemma queue_history_fifo_witness :
  let o := History.run
             [History.CallPut 1; History.CallPut 2; History.CallTake;
              History.CallClose; History.CallPut 3; History.CallTake;
              History.CallTake]
             Queue.new_queue in
  History.taken o = [1; 2] ∧ History.accepted o = [1; 2] ∧
  History.taken o ++ Queue.buffer_ (History.final o) = History.accepted o.
Proof.
  split_and!; [reflexivity..|].
  refine (proj2 (queue_history_fifo _) _).
  intros c Hc.
  repeat (apply elem_of_cons in Hc as [->|Hc]; [reflexivity|]).
  by apply elem_of_nil in Hc.
Defined.

(** ** [IsSorted] *)
Section CheckerFacts.
Import Worker Checker.

Lemma read_all_pending pending fuel vec :
  (length pending < fuel)%nat →
  read_all fuel {| pending := pending; eofbit := false |} vec
  = Some (vec ++ pending ++ [0]).
Proof.
  revert fuel vec. induction pending as [|x pending IH]; intros fuel vec Hf.
  - destruct fuel as [|[|fuel]]; simpl in *; try lia; done.
  - destruct fuel as [|fuel]; simpl in *; [lia|].
    rewrite IH by lia. by rewrite <- app_assoc.
Qed.

Lemma read_all_short pending fuel vec :
  (fuel ≤ length pending)%nat →
  read_all fuel {| pending := pending; eofbit := false |} vec = None.
Proof.
  revert fuel vec. induction pending as [|x pending IH]; intros fuel vec Hf.
  - destruct fuel; simpl in *; [done|lia].
  - destruct fuel as [|fuel]; simpl in *; [done|]. apply IH. lia.
Qed.

Lemma pop_back_snoc (vec : list Z) x : pop_back (vec ++ [x]) = vec.
Proof.
  unfold pop_back. rewrite length_app. simpl.
  replace (length vec + 1 - 1)%nat with (length vec) by lia.
  by rewrite take_app_length.
Qed.

Lemma is_sorted_ascending vec : is_sorted vec = true ↔ ascending vec.
Proof.
  unfold ascending. induction vec as [|x [|y vec] IH].
  - split; [constructor|done].
  - split; [repeat constructor|done].
  - change (is_sorted (x :: y :: vec))
      with (negb (bool_decide (y < x)) && is_sorted (y :: vec)).
    rewrite andb_true_iff, negb_true_iff, bool_decide_eq_false, IH.
    split.
    + intros [Hxy Hs]. constructor; [done|]. constructor. lia.
    + intros Hs. inversion Hs as [|? ? Hs' Hhd]; subst.
      inversion Hhd; subst. split; [lia|done].
Qed.
End CheckerFacts.

(** X3.  On a run file in the format the workers write, [IsSorted]
    returns (any [fuel] above the number of entries is enough for its
    loop, less is not); the vector it checks is exactly the entries of
    the file, the value of the extraction that met the end having been
    popped; and its answer is [true] exactly when no entry is smaller
    than the one before it.  An empty file is sorted. *)
Theorem IsSorted_checks_the_entries (files : gmap Z (list Z))
    (filename : Z) (content : list Z) (fuel : nat) :
  files !! filename = Some content →
  (length content < fuel)%nat →
  Checker.read_all fuel (Worker.open content) [] = Some (content ++ [0]) ∧
  Checker.pop_back (content ++ [0]) = content ∧
  Checker.IsSorted fuel files filename
  = Some (Checker.is_sorted content) ∧
  (Checker.IsSorted fuel files filename = Some true
   ↔ Worker.ascending content) ∧
  (∀ less, (less ≤ length content)%nat →
           Checker.IsSorted less files filename = None) ∧
  (content = [] → Checker.IsSorted fuel files filename = Some true).
Proof.
  intros Hfile Hfuel.
  assert (Checker.read_all fuel (Worker.open content) []
          = Some (content ++ [0])) as Hread.
  { unfold Worker.open. by rewrite read_all_pending. }
  assert (Checker.IsSorted fuel files filename
          = Some (Checker.is_sorted content)) as His.
  { unfold Checker.IsSorted. rewrite Hfile. simpl. rewrite Hread. simpl.
    by rewrite pop_back_snoc. }
  split_and!; [done|apply pop_back_snoc|done| | |].
  - rewrite His. rewrite <- is_sorted_ascending.
    split; [by intros [= ->]|by intros ->].
  - intros less Hless. unfold Checker.IsSorted. rewrite Hfile. simpl.
    unfold Worker.open. by rewrite read_all_short.
  - intros ->. by rewrite His.
Qed.

Lemma IsSorted_checks_the_entries_witness :
  Checker.IsSorted 4 {[ 8 := [1; 4; 4] ]} 8 = Some true ∧
  Checker.IsSorted 3 {[ 8 := [1; 4; 4] ]} 8 = None.
Proof.
  destruct (IsSorted_checks_the_entries {[ 8 := [1; 4; 4] ]} 8 [1; 4; 4] 4)
    as (_ & _ & His & _ & Hless & _).
  - reflexivity.
  - simpl. lia.
  - split; [exact His|]. apply (Hless 3%nat). simpl. lia.
Defined.

(** ** [MergeRoutine] on arbitrary inputs *)
Section MergeFacts.
Import Worker.

Lemma merge_files_two_pointer fuel content1 content2 merged :
  merge_files fuel content1 content2 = Some merged →
  merged = list_merge Z.lt content1 content2.
Proof.
  unfold merge_files. set (st0 := read2 (read1 _)).
  set (I := λ st,
    ostr st ++ list_merge Z.lt (rest1 st) (rest2 st)
    = list_merge Z.lt content1 content2).
  assert (I st0) as H0.
  { destruct (merge_start content1 content2) as (R1 & R2 & R3).
    subst I st0. simpl. by rewrite R1, R2, R3. }
  destruct (while fuel both_open merge_body st0) as [st1|] eqn:Hw1; [|done].
  simpl.
  destruct (while fuel open1 drain1 st1) as [st2|] eqn:Hw2; [|done]. simpl.
  destruct (while fuel open2 drain2 st2) as [st3|] eqn:Hw3; [|done]. simpl.
  intros [= <-].
  apply (while_rule I) in Hw1 as [H1 Hc1]; [| |done].
  2:{ intros st HI [He1 He2]%andb_true_iff.
      apply negb_true_iff in He1, He2. unfold I, merge_body in *.
      destruct (emit1 st He1) as (p1 & Hr1 & Hr1' & Hr2' & Ho' & _).
      destruct (emit2 st He2) as (p2 & Hr2 & Hq2' & Hq1' & Hoq' & _).
      rewrite Hr1, Hr2, list_merge_cons in HI.
      case_bool_decide as Hlt.
      - rewrite Hr1', Hr2', Ho', Hr2, <- app_assoc.
        by rewrite decide_True in HI by done.
      - rewrite Hq2', Hq1', Hoq', Hr1, <- app_assoc.
        by rewrite decide_False in HI by done. }
  apply (while_rule (λ st, I st ∧ (eofbit (istr1 st) = true ∨
                                   eofbit (istr2 st) = true)))
    in Hw2 as [[H2 _] Hc2].
  2:{ intros st [HI He] He1%negb_true_iff.
      destruct He as [He|He2]; [congruence|].
      unfold I, drain1 in *.
      destruct (emit1 st He1) as (p1 & Hr1 & Hr1' & Hr2' & Ho' & He2').
      split; [|right; congruence].
      assert (rest2 st = []) as Hnil by (unfold rest2, remaining; by rewrite He2).
      rewrite Hr1', Hr2', Ho', Hnil, list_merge_nil_r, <- app_assoc.
      by rewrite Hr1, Hnil, list_merge_nil_r in HI. }
  2:{ split; [done|]. unfold both_open in Hc1.
      destruct (eofbit (istr1 st1)), (eofbit (istr2 st1)); by auto. }
  apply negb_false_iff in Hc2.
  apply (while_rule (λ st, I st ∧ eofbit (istr1 st) = true))
    in Hw3 as [[HI He1] He2%negb_false_iff]; [| |done].
  2:{ intros st [HI He] He2%negb_true_iff. unfold I, drain2 in *.
      destruct (emit2 st He2) as (p2 & Hr2 & Hq2' & Hq1' & Hoq' & He1').
      split; [|congruence].
      assert (rest1 st = []) as Hnil by (unfold rest1, remaining; by rewrite He).
      rewrite Hq2', Hq1', Hoq', Hnil, list_merge_nil_l, <- app_assoc.
      by rewrite Hr2, Hnil, list_merge_nil_l in HI. }
  unfold I, rest1, rest2, remaining in HI. rewrite He1, He2 in HI.
  simpl in HI. by rewrite app_nil_r in HI.
Qed.
End MergeFacts.





(** ** [SorterRoutine] and [SortBatchFiles] at their bounds *)
Section BoundsFacts.
Import Worker.

Lemma read_numbers_shape rest i max :
  read_numbers rest i max
  = take (Z.to_nat (max - i)) rest
    ++ (if bool_decide (Z.of_nat (length rest) < max - i) then [0] else []).
Proof.
  case_bool_decide as Hshort.
  - rewrite read_numbers_short by done. by rewrite take_ge by lia.
  - rewrite read_numbers_full by lia. by rewrite app_nil_r.
Qed.

Lemma windows_from input batch_size :
  1 ≤ batch_size →
  ∀ (n : nat) i,
    0 ≤ i →
    i + Z.of_nat (S n) = ceil_div (Z.of_nat (length input)) batch_size →
    concat ((λ task, take (Z.to_nat (max_numbers task))
                          (seekg input (offset task)))
              <$> (chunk_task batch_size <$> seqZ i (Z.of_nat (S n))))
    = drop (Z.to_nat (i * batch_size)) input.
Proof.
  intros HB. induction n as [|n IH]; intros i Hi HN.
  - assert (ceil_div (Z.of_nat (length input)) batch_size ≤ i + 1) as Hle
      by lia.
    rewrite ceil_div_le in Hle by done.
    change (seqZ i (Z.of_nat 1)) with [i]. rewrite !fmap_cons, !fmap_nil.
    cbn [concat]. rewrite app_nil_r, seekg_chunk by done.
    apply take_ge. rewrite length_drop. simpl. lia.
  - rewrite (seqZ_cons i) by lia. rewrite !fmap_cons. cbn [concat].
    replace (Z.pred (Z.of_nat (S (S n)))) with (Z.of_nat (S n)) by lia.
    rewrite (IH (Z.succ i)) by lia. rewrite seekg_chunk by done.
    replace (Z.to_nat (Z.succ i * batch_size))
      with (Z.to_nat (i * batch_size) + Z.to_nat batch_size)%nat by lia.
    rewrite <- drop_drop. apply take_drop.
Qed.
End BoundsFacts.

(** X6.  What [SorterRoutine] does with every task that starts on an
    [int] boundary and asks for no more numbers than an [int] can count:
    it reads up to [max_numbers] of the integers left in the file and, if
    fewer are left, one more [0].  With [max_numbers >= 1] it therefore
    always has numbers, and always writes and publishes a run, also when
    its offset is at or beyond the end of the file, where the run is the
    single [0].  The branch that publishes nothing is taken only for
    [max_numbers = 0]; the file is created even then. *)
Theorem SorterRoutine_reads_and_publishes (input : list Z)
    (task : Worker.SortTask) (files : gmap Z (list Z))
    (q : Queue.UnboundedBlockingQueue Z) :
  0 ≤ Worker.offset task → Worker.offset task mod sizeof_int = 0 →
  0 ≤ Worker.max_numbers task ≤ INT_MAX →
  let left := Worker.seekg input (Worker.offset task) in
  let numbers := Worker.numbers_for_sort input task in
  numbers
  = take (Z.to_nat (Worker.max_numbers task)) left
    ++ (if bool_decide (Z.of_nat (length left) < Worker.max_numbers task)
        then [0] else []) ∧
  (0 < Worker.max_numbers task →
   numbers ≠ [] ∧
   Worker.SorterRoutine input task files q
   = (<[Worker.offset task := Worker.std_sort numbers]> files,
      (Queue.Put (Worker.offset task) q).2)) ∧
  (0 < Worker.max_numbers task → left = [] →
   Worker.SorterRoutine input task files q
   = (<[Worker.offset task := [0]]> files,
      (Queue.Put (Worker.offset task) q).2)) ∧
  (Worker.max_numbers task = 0 →
   Worker.SorterRoutine input task files q
   = (<[Worker.offset task := []]> files, q)).
Proof.
  intros _ _ _ left numbers.
  assert (numbers
    = take (Z.to_nat (Worker.max_numbers task)) left
      ++ (if bool_decide (Z.of_nat (length left) < Worker.max_numbers task)
          then [0] else [])) as Hshape.
  { subst numbers left. unfold Worker.numbers_for_sort.
    rewrite read_numbers_shape. by rewrite !Z.sub_0_r. }
  assert (0 < Worker.max_numbers task →
    numbers ≠ [] ∧
    Worker.SorterRoutine input task files q
    = (<[Worker.offset task := Worker.std_sort numbers]> files,
       (Queue.Put (Worker.offset task) q).2)) as Hpub.
  { intros Hmax. split; [by apply read_numbers_nonempty|].
    unfold Worker.SorterRoutine.
    pose proof (sorted_numbers_nonempty input task Hmax) as Hne.
    fold numbers in Hne |- *. unfold Worker.sorted_numbers in *.
    fold numbers in Hne |- *. by destruct (Worker.std_sort numbers). }
  split_and!; [done|done| |].
  - intros Hmax Hleft. destruct (Hpub Hmax) as [_ ->].
    rewrite Hshape, Hleft. simpl. rewrite take_nil.
    by rewrite bool_decide_true by lia.
  - intros Hmax. unfold Worker.SorterRoutine, Worker.sorted_numbers.
    fold numbers. rewrite Hshape.
    replace (Z.to_nat (Worker.max_numbers task)) with O by lia.
    by rewrite bool_decide_false by lia.
Qed.

Lemma SorterRoutine_reads_and_publishes_witness :
  Worker.SorterRoutine [5; 3; 4]
    {| Worker.offset := 12; Worker.max_numbers := 2 |} ∅ Queue.new_queue
  = (<[12 := [0]]> ∅,
     {| Queue.is_closed_ := false; Queue.buffer_ := [12] |}).
Proof.
  refine (proj1 (proj2 (proj2 (SorterRoutine_reads_and_publishes [5; 3; 4]
    {| Worker.offset := 12; Worker.max_numbers := 2 |} ∅ Queue.new_queue
    _ _ _))) _ _).
  - simpl. lia.
  - reflexivity.
  - unfold INT_MAX. simpl. lia.
  - simpl. lia.
  - reflexivity.
Defined.

(** X7.  [SortBatchFiles] divides by zero exactly when the batch size is
    a multiple of [2^62], where [batch_size * sizeof(int)] wraps to [0]:
    not for [0] alone, also for [2^62], [2^63] and [3 * 2^62]. *)
Theorem SortBatchFiles_undefined_iff (file_size batch_size : Z) :
  is_size_t batch_size →
  (Worker.SortBatchFiles file_size batch_size = None
   ↔ batch_size mod 2 ^ 62 = 0) ∧
  (Worker.SortBatchFiles file_size batch_size = None
   ↔ batch_size = 0 ∨ batch_size = 2 ^ 62 ∨ batch_size = 2 ^ 63 ∨
     batch_size = 3 * 2 ^ 62).
Proof.
  intros [Hlo Hhi]. rewrite size_t_modulus_eq in Hhi.
  assert (Worker.SortBatchFiles file_size batch_size = None
          ↔ batch_size mod 2 ^ 62 = 0) as Hiff.
  { unfold Worker.SortBatchFiles. rewrite batch_bytes_multiple.
    unfold sizeof_int. case_bool_decide; split; try done; lia. }
  split; [done|]. rewrite Hiff. split.
  - intros Hmod. apply Z.mod_divide in Hmod as [k Hk]; [|lia]. lia.
  - intros [->|[->|[->| ->]]]; reflexivity.
Qed.

Lemma SortBatchFiles_undefined_iff_witness :
  Worker.SortBatchFiles 12 (2 ^ 62) = None.
Proof.
  refine (proj2 (proj1 (SortBatchFiles_undefined_iff 12 (2 ^ 62) _)) _).
  - unfold is_size_t. rewrite size_t_modulus_eq. lia.
  - reflexivity.
Defined.

(** X8.  Whatever the batch size, the tasks [SortBatchFiles] starts have
    offsets inside the file, on [int] boundaries, strictly increasing in
    the order they are started, so no two sorters write to the same file;
    their number is the count returned, and each has the batch size as
    its [max_numbers]. *)
Theorem SortBatchFiles_offsets_distinct (file_size batch_size : Z)
    (running : list Worker.SortTask) (count : Z) :
  is_size_t file_size → is_size_t batch_size →
  Worker.SortBatchFiles file_size batch_size = Some (running, count) →
  count = Z.of_nat (length running) ∧
  StronglySorted Z.lt (Worker.offset <$> running) ∧
  NoDup (Worker.offset <$> running) ∧
  Forall (λ task, 0 ≤ Worker.offset task < file_size ∧
                  Worker.offset task mod sizeof_int = 0 ∧
                  Worker.max_numbers task = batch_size) running.
Proof.
  intros Hfs Hbs Hsort.
  destruct (SortBatchFiles_sound _ _ _ _ Hbs Hsort)
    as (HB & Hcount & _ & Hall).
  assert (to_size_t (batch_size * sizeof_int) ≠ 0) as Hbb.
  { intros H0. unfold Worker.SortBatchFiles in Hsort.
    by rewrite bool_decide_true in Hsort. }
  rewrite (SortBatchFiles_bytes file_size batch_size Hfs Hbb) in Hsort.
  injection Hsort as <- <-.
  set (bb := to_size_t (batch_size * sizeof_int)) in *.
  assert (4 ≤ bb ∧ bb mod sizeof_int = 0) as [H4 Hmod].
  { subst bb. rewrite batch_bytes_multiple in *.
    pose proof (Z.mod_pos_bound batch_size (2 ^ 62) ltac:(lia)).
    unfold sizeof_int in *. split; [lia|]. by apply Z.mod_mul. }
  assert (StronglySorted Z.lt
            (Worker.offset <$>
               (Worker.task_at bb batch_size
                  <$> seqZ 0 (Worker.ceil_div file_size bb)))) as Hsorted.
  { generalize 0 at 1 as i. generalize (Worker.ceil_div file_size bb) as n.
    intros n. destruct (decide (0 ≤ n)) as [Hn|Hn].
    2:{ intros i. rewrite seqZ_nil by lia. constructor. }
    replace n with (Z.of_nat (Z.to_nat n)) by lia.
    generalize (Z.to_nat n) as m. clear n Hn.
    induction m as [|m IH]; intros i.
    - rewrite seqZ_nil by lia. constructor.
    - rewrite seqZ_cons by lia. rewrite !fmap_cons.
      replace (Z.pred (Z.of_nat (S m))) with (Z.of_nat m) by lia.
      constructor; [by apply IH|].
      apply Forall_fmap, Forall_fmap, Forall_forall.
      intros j Hj%elem_of_seqZ. simpl. nia. }
  split_and!; [done|done| |].
  - clear -Hsorted. induction Hsorted as [|x l _ IH Hx]; [constructor|].
    constructor; [|done]. intros Hin.
    apply (proj1 (Forall_forall _ _) Hx) in Hin. lia.
  - apply Forall_forall. intros task Hin.
    pose proof (proj1 (Forall_forall _ _) Hall task Hin) as [Hoff Hmax].
    split_and!; [lia..| |done].
    apply list_elem_of_fmap in Hin as (j & -> & _). simpl.
    rewrite <- (Z.mul_mod_idemp_r j bb) by (unfold sizeof_int; lia).
    rewrite Hmod, Z.mul_0_r. done.
Qed.

Lemma SortBatchFiles_offsets_distinct_witness :
  NoDup [0; 4; 8].
Proof.
  refine (proj1 (proj2 (proj2 (SortBatchFiles_offsets_distinct 12 (2 ^ 62 + 1)
    [ {| Worker.offset := 0; Worker.max_numbers := 2 ^ 62 + 1 |};
      {| Worker.offset := 4; Worker.max_numbers := 2 ^ 62 + 1 |};
      {| Worker.offset := 8; Worker.max_numbers := 2 ^ 62 + 1 |} ] 3
    _ _ _)))).
  - unfold is_size_t. rewrite size_t_modulus_eq. lia.
  - unfold is_size_t. rewrite size_t_modulus_eq. lia.
  - vm_compute. reflexivity.
Defined.

(** X9.  While nothing wraps, the tasks of [SortBatchFiles] tile the
    input: the stretches of [max_numbers] integers that start at the
    tasks' offsets, taken in the order the tasks are started, are the
    input file, each integer in exactly one stretch; and no stretch is
    empty. *)
Theorem SortBatchFiles_tiles_the_input (input : list Z) (batch_size : Z) :
  1 ≤ batch_size → batch_size * sizeof_int < size_t_modulus →
  Worker.file_size input < size_t_modulus →
  ∃ running count,
    Worker.SortBatchFiles (Worker.file_size input) batch_size
    = Some (running, count) ∧
    concat ((λ task, take (Z.to_nat (Worker.max_numbers task))
                          (Worker.seekg input (Worker.offset task)))
              <$> running) = input ∧
    Forall (λ task, Worker.seekg input (Worker.offset task) ≠ [] ∧
                    0 < Worker.max_numbers task) running.
Proof.
  intros HB HBw HLw. unfold Worker.file_size in *.
  set (len := Z.of_nat (length input)) in *.
  assert (len = Z.of_nat (length input)) as Hlen by done. clearbody len.
  eexists _, _. split; [apply SortBatchFiles_exact; lia|].
  pose proof (ceil_div_bounds len batch_size HB ltac:(lia)) as [HN _].
  split.
  - destruct (Z.to_nat (Worker.ceil_div len batch_size)) as [|n] eqn:En.
    + assert (Worker.ceil_div len batch_size ≤ 0) as Hle by lia.
      replace (Worker.ceil_div len batch_size) with 0 by lia.
      rewrite ceil_div_le in Hle by done.
      symmetry. apply length_zero_iff_nil. lia.
    + replace (Worker.ceil_div len batch_size) with (Z.of_nat (S n)) by lia.
      rewrite windows_from by (done || subst len; lia). done.
  - apply Forall_fmap, Forall_forall. intros i Hi%elem_of_seqZ.
    unfold compose. rewrite seekg_chunk by (done || lia).
    split; [|simpl; lia].
    assert (¬ Worker.ceil_div len batch_size ≤ i) as Hlt by lia.
    rewrite ceil_div_le in Hlt by done.
    intros Hnil%(f_equal length). rewrite length_drop in Hnil.
    simpl in Hnil. lia.
Qed.

Lemma SortBatchFiles_tiles_the_input_witness :
  ∃ running count,
    Worker.SortBatchFiles 20 2 = Some (running, count) ∧
    concat ((λ task, take (Z.to_nat (Worker.max_numbers task))
                          (Worker.seekg [5; 3; 4; 1; 2]
                             (Worker.offset task)))
              <$> running) = [5; 3; 4; 1; 2] ∧
    Forall (λ task, Worker.seekg [5; 3; 4; 1; 2] (Worker.offset task) ≠ [] ∧
                    0 < Worker.max_numbers task) running.
Proof.
  refine (SortBatchFiles_tiles_the_input [5; 3; 4; 1; 2] 2 _ _ _).
  - lia.
  - reflexivity.
  - reflexivity.
Defined.

(** ** The names of the run files and what the files hold *)
Section NamesFacts.
Import Worker Pipeline Names.
Variable input : list Z.
Implicit Types (s : state) (tr : list event).

Lemma launches_snoc tr e :
  launches (tr ++ [e])
  = launches tr ++ match e with Launched task => [task] | _ => [] end.
Proof. unfold launches. rewrite omap_app. by destruct e. Qed.

Lemma published_snoc tr e :
  published (tr ++ [e])
  = published tr ++ match e with
                    | SorterRan task => [offset task]
                    | MergerRan task => [id task]
                    | _ => []
                    end.
Proof. unfold published. rewrite omap_app. by destruct e. Qed.

Lemma sorts_done_snoc tr e :
  sorts_done (tr ++ [e])
  = sorts_done tr ++ match e with SorterRan task => [task] | _ => [] end.
Proof. unfold sorts_done. rewrite omap_app. by destruct e. Qed.

Lemma merges_done_snoc tr e :
  merges_done (tr ++ [e])
  = merges_done tr ++ match e with MergerRan task => [task] | _ => [] end.
Proof. unfold merges_done. rewrite omap_app. by destruct e. Qed.

Lemma current_id_launches_left m id :
  current_id m = Some id → ∃ todo, launches_left m = Some (id, todo).
Proof. destruct m; intros [= <-]; by eexists. Qed.

(** The ids go down by one with every launch. *)
Lemma ids_in_order_step target tr s e s' :
  counts s → contents input target s → ids_in_order tr s →
  step input s e s' → ids_in_order (tr ++ [e]) s'.
Proof.
  intros (_ & Hexp & _ & _) (_ & _ & Hfresh & _ & _) (Hid & Hseq & Hlt) Hstep.
  unfold ids_in_order. rewrite launches_snoc.
  destruct Hstep as
    [s before task after files' q' Hs HR
    |s before task after fuel files' q' Hm HR
    |s tc id f q' Hmain Htc _
    |s tc id f1 f q' Hmain _
    |s tc id f1 f2 Hmain task
    |s tc id f q' Hmain Htc _
    |s q' Hmain _]; cbn [main]; rewrite ?app_nil_r.
  - done.
  - done.
  - rewrite Hmain in Hid. split_and!; [|done..]. intros id0 [= <-]. by apply Hid.
  - rewrite Hmain in Hid. split_and!; [|done..]. intros id0 [= <-]. by apply Hid.
  - unfold names_fresh, expects in *. rewrite Hmain in *.
    cbn [launches_left] in Hfresh. destruct Hfresh as (Hmin & Hneg & Hall).
    assert (int_pred id = id - 1) as Hpred.
    { apply int_pred_in_range. unfold INT_MAX, INT_MIN in *. lia. }
    specialize (Hid id eq_refl). subst task.
    rewrite length_app. cbn [length].
    replace (length (launches tr) + 1)%nat with (S (length (launches tr)))
      by lia.
    split_and!.
    + intros id0 [= <-]. lia.
    + rewrite fmap_app, Hseq, seqZ_S, fmap_app. simpl. rewrite Hpred.
      do 2 f_equal. lia.
    + intros task [Hin| ->%list_elem_of_singleton]%elem_of_app;
        [by apply Hlt|].
      cbn [Worker.id filename1 filename2]. rewrite Hpred.
      assert (id ≤ f1 ∧ id ≤ f2) as [H1 H2]; [|lia].
      split; apply Hall; unfold live; rewrite Hmain; set_solver.
  - split_and!; [|done..]. by intros id0 [=].
  - split_and!; [|done..]. by intros id0 [=].
Qed.

(** Nothing is written to a file whose name was published. *)
Lemma published_safe_step target tr s e s' :
  counts s → contents input target s → published_safe tr s →
  step input s e s' → published_safe (tr ++ [e]) s'.
Proof.
  intros (Hopen & Hexp & Hmax & _) (Hnd & _ & Hfresh & _ & _) (Hsafe & Hlow)
         Hstep.
  assert (∀ out, out ∈ outputs s →
                 ∀ id, current_id (main s) = Some id → id ≤ out) as Hout.
  { intros out Hin id [todo Hleft]%current_id_launches_left.
    unfold names_fresh in Hfresh. rewrite Hleft in Hfresh.
    destruct Hfresh as (_ & _ & Hall). apply Hall. set_solver. }
  assert (∀ s1 out,
    main s1 = main s → outputs s ≡ₚ out :: outputs s1 →
    (∀ f, f ∈ published tr ++ [out] → f ∉ outputs s1) ∧
    (∀ id, current_id (main s1) = Some id →
           ∀ f, f ∈ published tr ++ [out] → id ≤ f)) as Hpublish.
  { intros s1 out Hmain Houts.
    assert ((out ∉ outputs s1) ∧ NoDup (outputs s1)) as [Hnew _].
    { apply NoDup_cons. by rewrite <- Houts. }
    split.
    - intros f [Hin| ->%list_elem_of_singleton]%elem_of_app; [|done].
      intros Hf. apply (Hsafe f Hin). rewrite Houts. set_solver.
    - rewrite Hmain.
      intros id Hid f [Hin| ->%list_elem_of_singleton]%elem_of_app.
      + by eapply Hlow.
      + apply Hout; [|done]. rewrite Houts. set_solver. }
  unfold published_safe. rewrite published_snoc.
  destruct Hstep as
    [s before task after files' q' Hs HR
    |s before task after fuel files' q' Hm HR
    |s tc id f q' Hmain Htc _
    |s tc id f1 f q' Hmain _
    |s tc id f1 f2 Hmain task
    |s tc id f q' Hmain Htc _
    |s q' Hmain Hnull%main_take_nullopt_inv]; rewrite ?app_nil_r.
  - apply Hpublish; [done|].
    unfold outputs. simpl. rewrite Hs, !fmap_app, fmap_cons. rearrange.
  - apply Hpublish; [done|].
    unfold outputs. simpl. rewrite Hm, !fmap_app, fmap_cons. rearrange.
  - split; [done|]. cbn [main]. intros id0 [= <-]. apply Hlow.
    by rewrite Hmain.
  - split; [done|]. cbn [main]. intros id0 [= <-]. apply Hlow.
    by rewrite Hmain.
  - pose proof Hfresh as Hfresh'.
    unfold names_fresh, expects in Hfresh', Hexp. rewrite Hmain in *.
    cbn [launches_left] in Hfresh'. destruct Hfresh' as (Hmin & Hneg & _).
    assert (int_pred id = id - 1) as Hpred.
    { apply int_pred_in_range. unfold INT_MAX, INT_MIN in *. lia. }
    specialize (Hlow id eq_refl). subst task. split.
    + intros f Hf. unfold outputs in *. simpl. rewrite fmap_app. simpl.
      intros [Hin|[Hin| ->%list_elem_of_singleton]%elem_of_app]%elem_of_app.
      * apply (Hsafe f Hf). set_solver.
      * apply (Hsafe f Hf). set_solver.
      * specialize (Hlow _ Hf). lia.
    + cbn [main]. intros id0 [= <-] f Hf. specialize (Hlow _ Hf). lia.
  - split; [done|]. cbn [main]. by intros id0 [=].
  - congruence.
Qed.

(** A file stays as its worker wrote it. *)
Lemma on_disk_step target runs running dir tr s e s' :
  counts s → contents input target s → accounts runs running tr s →
  published_safe tr s → on_disk input dir tr s →
  step input s e s' → on_disk input dir (tr ++ [e]) s'.
Proof.
  intros (Hopen & Hexp & Hmax & _) (Hnd & Hdisj & _ & _ & _)
         (_ & Htakes & Hpub & Hmerges & _) (Hsafe & _)
         (Hsorts & Hmerged & Hrest) Hstep.
  assert (∀ task, task ∈ sorts_done tr → offset task ∈ published tr) as Fs.
  { intros task Hin. rewrite published_split. set_solver. }
  assert (∀ task, task ∈ merges_done tr →
            Worker.id task ∈ published tr ∧
            filename1 task ∈ published tr ∧
            filename2 task ∈ published tr) as Fm.
  { intros task Hin.
    assert (task ∈ launches tr) as Hl by (rewrite <- Hmerges; set_solver).
    assert (filename1 task ∈ inputs (launches tr) ∧
            filename2 task ∈ inputs (launches tr)) as [H1 H2].
    { unfold inputs. split; apply list_elem_of_bind; exists task; set_solver. }
    split_and!.
    - rewrite published_split. set_solver.
    - rewrite <- Hpub, Htakes. set_solver.
    - rewrite <- Hpub, Htakes. set_solver. }
  assert (∀ out c,
    out ∈ outputs s →
    (∀ task, task ∈ sorts_done tr →
       <[out := c]> (files s) !! offset task
       = Some (sorted_numbers input task)) ∧
    (∀ task, task ∈ merges_done tr →
       ∃ content1 content2,
         <[out := c]> (files s) !! filename1 task = Some content1 ∧
         <[out := c]> (files s) !! filename2 task = Some content2 ∧
         <[out := c]> (files s) !! Worker.id task
         = Some (list_merge Z.lt content1 content2)) ∧
    (∀ f, f ∉ published tr ++ [out] →
          <[out := c]> (files s) !! f = dir !! f)) as Hwrite.
  { intros out c Hout.
    assert (∀ f, f ∈ published tr → out ≠ f) as Hne.
    { intros f Hf ->. by apply (Hsafe f Hf). }
    split_and!.
    - intros task Hin. rewrite lookup_insert_ne by (apply Hne, Fs, Hin).
      by apply Hsorts.
    - intros task Hin. destruct (Hmerged task Hin) as (c1 & c2 & H1 & H2 & H3).
      destruct (Fm task Hin) as (F0 & F1 & F2).
      exists c1, c2. rewrite !lookup_insert_ne by (by apply Hne). done.
    - intros f Hf. rewrite lookup_insert_ne by set_solver.
      apply Hrest. set_solver. }
  unfold on_disk.
  rewrite sorts_done_snoc, merges_done_snoc, published_snoc.
  destruct Hstep as
    [s before task after files' q' Hs HR
    |s before task after fuel files' q' Hm HR
    |s tc id f q' Hmain Htc _
    |s tc id f1 f q' Hmain _
    |s tc id f1 f2 Hmain task
    |s tc id f q' Hmain Htc _
    |s q' Hmain Hnull%main_take_nullopt_inv]; cbn [files];
    rewrite ?app_nil_r; try done.
  - rewrite SorterRoutine_publishes in HR; [|apply Hmax; rewrite Hs|done].
    2:{ set_solver. }
    injection HR as <- <-.
    destruct (Hwrite (offset task) (sorted_numbers input task))
      as (W1 & W2 & W3).
    { unfold outputs. rewrite Hs. set_solver. }
    split_and!; [|done..].
    intros task0 [Hin| ->%list_elem_of_singleton]%elem_of_app;
      [by apply W1|]. by rewrite lookup_insert_eq.
  - apply MergeRoutine_inv in HR
      as (c1 & c2 & merged & H1 & H2 & Hmerge & -> & ->); [|done].
    assert (Worker.id task ∈ outputs s) as Hid.
    { unfold outputs. rewrite Hm. set_solver. }
    assert (filename1 task ∈ live s ∧ filename2 task ∈ live s) as [Hl1 Hl2].
    { unfold live. rewrite Hm, inputs_app, inputs_cons. set_solver. }
    assert (Worker.id task ≠ filename1 task) as Hne1.
    { intros Heq. apply (Hdisj _ Hid). congruence. }
    assert (Worker.id task ≠ filename2 task) as Hne2.
    { intros Heq. apply (Hdisj _ Hid). congruence. }
    rewrite lookup_insert_ne in H1, H2 by done.
    apply merge_files_two_pointer in Hmerge as ->.
    destruct (Hwrite (Worker.id task) (list_merge Z.lt c1 c2) Hid)
      as (W1 & W2 & W3).
    split_and!; [done| |done].
    intros task0 [Hin| ->%list_elem_of_singleton]%elem_of_app;
      [by apply W2|].
    exists c1, c2. rewrite !lookup_insert_ne by done.
    by rewrite lookup_insert_eq.
Qed.

Lemma exec_names target runs running dir s0 tr s :
  counts s0 → contents input target s0 → accounts runs running [] s0 →
  ids_in_order [] s0 → published_safe [] s0 → on_disk input dir [] s0 →
  exec input s0 tr s →
  ids_in_order tr s ∧ published_safe tr s ∧ on_disk input dir tr s.
Proof.
  intros Hc Hcont Hacc Hids Hsafe Hdisk.
  induction 1 as [|tr s1 e s2 Hex (IH1 & IH2 & IH3) Hstep]; [done|].
  pose proof (exec_counts input _ _ _ Hc Hex) as Hc1.
  pose proof (exec_contents input _ _ _ _ Hc Hcont Hex) as Hcont1.
  pose proof (exec_accounts input _ _ _ _ _ Hc Hacc Hex) as Hacc1.
  split_and!.
  - by eapply ids_in_order_step.
  - by eapply published_safe_step.
  - by eapply on_disk_step.
Qed.

Lemma names_enter dir running runs :
  let s0 := enter_MergeBatchFiles Queue.new_queue dir running runs in
  ids_in_order [] s0 ∧ published_safe [] s0 ∧ on_disk input dir [] s0.
Proof.
  unfold ids_in_order, published_safe, on_disk. simpl.
  split_and!; try done; try (intros ? Hin; by apply elem_of_nil in Hin).
  - by intros id [= <-].
  - intros id _ f Hin. by apply elem_of_nil in Hin.
Qed.
End NamesFacts.

Section OpenFacts.
Import Worker Pipeline.

Lemma SorterRoutine_keeps_open input task files q files' q' :
  SorterRoutine input task files q = (files', q') →
  Queue.is_closed_ q = false → Queue.is_closed_ q' = false.
Proof.
  unfold SorterRoutine. intros HR Hq.
  destruct (sorted_numbers input task); injection HR as <- <-; [done|].
  by rewrite (Put_open _ _ Hq).
Qed.

Lemma step_keeps_open input s e s' :
  step input s e s' →
  Queue.is_closed_ (sorted_parts s) = false →
  Queue.is_closed_ (sorted_parts s') = false ∧ e ≠ Dereferenced_nullopt ∧
  (main s ≠ Undefined → main s' ≠ Undefined).
Proof.
  intros Hstep Hopen.
  destruct Hstep as
    [s before task after files' q' Hs HR
    |s before task after fuel files' q' Hm HR
    |s tc id f q' Hmain Htc [Hb Hc]%main_take_name_inv
    |s tc id f1 f q' Hmain [Hb Hc]%main_take_name_inv
    |s tc id f1 f2 Hmain task
    |s tc id f q' Hmain Htc [Hb Hc]%main_take_name_inv
    |s q' Hmain Hnull%main_take_nullopt_inv]; cbn [sorted_parts main];
    try congruence.
  - split_and!; [|done..]. by eapply SorterRoutine_keeps_open.
  - apply MergeRoutine_inv in HR as (_ & _ & _ & _ & _ & _ & _ & ->); done.
  - split_and!; [congruence|done..].
  - split_and!; [congruence|done..].
  - done.
  - split_and!; [congruence|done..].
Qed.
End OpenFacts.

(** X10.  No thread of the program calls [Close] or [Cancel]: in every
    execution of [main], whatever the input and the batch size, the queue
    stays open, so no [Take] of [MergeBatchFiles] ever returns an empty
    optional and [main] never dereferences one; a [Take] that finds no
    name waits. *)
Theorem queue_is_never_closed (input : list Z) (atoi_argv2 : Z)
    (dir : gmap Z (list Z)) (s0 : Pipeline.state)
    (tr : list Pipeline.event) (s : Pipeline.state) :
  Pipeline.main_start input atoi_argv2 dir = Some s0 →
  Pipeline.exec input s0 tr s →
  Queue.is_closed_ (Pipeline.sorted_parts s) = false ∧
  Pipeline.main s ≠ Pipeline.Undefined ∧
  (Pipeline.Dereferenced_nullopt ∉ tr) ∧
  (∀ e s', Pipeline.step input s e s' → e ≠ Pipeline.Dereferenced_nullopt) ∧
  (Queue.buffer_ (Pipeline.sorted_parts s) = [] →
   Queue.Take (Pipeline.sorted_parts s) = Queue.Blocks).
Proof.
  intros Hstart Hex.
  assert (Queue.is_closed_ (Pipeline.sorted_parts s0) = false ∧
          Pipeline.main s0 ≠ Pipeline.Undefined) as [Hopen0 Hmain0].
  { unfold Pipeline.main_start in Hstart.
    destruct (Worker.SortBatchFiles _ _) as [[running runs]|]; [|done].
    by injection Hstart as <-. }
  assert (Queue.is_closed_ (Pipeline.sorted_parts s) = false ∧
          Pipeline.main s ≠ Pipeline.Undefined ∧
          (Pipeline.Dereferenced_nullopt ∉ tr)) as (Hopen & Hmain & Htr).
  { induction Hex as [|tr s1 e s2 Hex (IH1 & IH2 & IH3) Hstep].
    - split_and!; [done..|]. apply not_elem_of_nil.
    - destruct (step_keeps_open _ _ _ _ Hstep IH1) as (H1 & H2 & H3).
      split_and!; [done|by apply H3|].
      intros [Hin|Heq%list_elem_of_singleton]%elem_of_app; [done|].
      by apply H2. }
  split_and!; [done..| |].
  - intros e s' Hstep.
    by destruct (step_keeps_open _ _ _ _ Hstep Hopen) as (_ & He & _).
  - intros Hb. unfold Queue.Take, Queue.must_wait. by rewrite Hb, Hopen.
Qed.

Lemma queue_is_never_closed_witness :
  ∃ s,
    Pipeline.exec [7]
      (Pipeline.enter_MergeBatchFiles Queue.new_queue ∅
         [Worker.chunk_task 10 0] 1)
      [Pipeline.SorterRan (Worker.chunk_task 10 0); Pipeline.Took 0] s ∧
    Queue.is_closed_ (Pipeline.sorted_parts s) = false ∧
    Pipeline.main s ≠ Pipeline.Undefined.
Proof.
  destruct single_element_execution as (s & Hex & _).
  exists s. split; [exact Hex|].
  assert (Pipeline.main_start [7] 10 ∅
          = Some (Pipeline.enter_MergeBatchFiles Queue.new_queue ∅
                    [Worker.chunk_task 10 0] 1)) as Hstart.
  { vm_compute. reflexivity. }
  destruct (queue_is_never_closed [7] 10 ∅ _ _ s Hstart Hex)
    as (H1 & H2 & _).
  split; [exact H1|exact H2].
Defined.

(** X11.  The names of the run files.  [MergeBatchFiles] hands the ids
    [-2], [-3], ... to the mergers in the order it launches them, every
    merger reads two files whose names are above its own id, so never the
    file it writes, and the name [main] prints is [0] when the input fits
    one chunk and otherwise [-chunks], the id of the merger launched
    last. *)
Theorem MergeBatchFiles_output_name (input : list Z) (atoi_argv2 : Z)
    (dir : gmap Z (list Z)) :
  1 ≤ atoi_argv2 ≤ INT_MAX →
  Worker.file_size input < size_t_modulus →
  Worker.ceil_div (Z.of_nat (length input)) atoi_argv2 ≤ 2 ^ 31 →
  input ≠ [] →
  let chunks := Worker.ceil_div (Z.of_nat (length input)) atoi_argv2 in
  ∃ s0,
    Pipeline.main_start input atoi_argv2 dir = Some s0 ∧
    ∀ tr s, Pipeline.exec input s0 tr s →
      Worker.id <$> Pipeline.launches tr
      = (λ k, -2 - k)
          <$> seqZ 0 (Z.of_nat (length (Pipeline.launches tr))) ∧
      (∀ task, task ∈ Pipeline.launches tr →
         Worker.id task < Worker.filename1 task ∧
         Worker.id task < Worker.filename2 task) ∧
      (∀ f, Pipeline.main s = Pipeline.Finished f →
         f = if bool_decide (chunks = 1) then 0 else - chunks).
Proof.
  intros Hb Hfs Hchunks Hne chunks.
  eexists. split; [by apply main_start_int|].
  fold chunks. set (running := Worker.chunk_task atoi_argv2 <$> seqZ 0 chunks).
  set (s0 := Pipeline.enter_MergeBatchFiles _ _ _ _).
  assert (1 ≤ chunks) as Hone.
  { destruct (decide (1 ≤ chunks)) as [|Hle]; [done|].
    assert (chunks ≤ 0) as H0 by lia.
    apply ceil_div_le in H0; [|lia]. destruct input; [done|simpl in H0; lia]. }
  assert (Pipeline.counts s0) as Hc.
  { apply counts_enter.
    - unfold running. rewrite length_fmap, length_seqZ. lia.
    - rewrite size_t_modulus_eq. fold chunks in Hchunks. lia.
    - intros task (i & -> & _)%list_elem_of_fmap. simpl. lia. }
  assert (Pipeline.contents input
            (input ++ Worker.end_of_file_zero (Z.of_nat (length input))
                                              atoi_argv2) s0) as Hcont.
  { apply contents_enter; [lia|done]. }
  intros tr s Hex.
  destruct (names_enter input dir running chunks) as (N1 & N2 & N3).
  destruct (exec_names input _ _ _ _ _ _ _ Hc Hcont
              (accounts_enter dir running chunks) N1 N2 N3 Hex)
    as ((_ & Hseq & Hlt) & _ & _).
  split_and!; [done..|].
  intros f Hf.
  destruct (exec_counts _ _ _ _ Hc Hex) as (_ & Hexp & _).
  destruct (exec_accounts input chunks running _ _ _ Hc
              (accounts_enter dir running chunks) Hex)
    as (Hprog & Htakes & Hpub & Hmerges & Hsorts).
  unfold Pipeline.expects, Pipeline.pool in Hexp.
  unfold Pipeline.progress_of in Hprog. rewrite Hf in *. simpl in *.
  assert (Queue.buffer_ (Pipeline.sorted_parts s) = [] ∧
          Pipeline.sorters s = [] ∧ Pipeline.mergers s = [])
    as (Hb0 & Hs0 & Hm0).
  { split_and!; apply length_zero_iff_nil; lia. }
  rewrite Hb0, Hs0, Hm0, ?app_nil_r in *.
  assert (∀ g, g ∈ Worker.id <$> Pipeline.launches tr → - chunks ≤ g)
    as Hids.
  { intros g. rewrite Hseq.
    intros (k & -> & Hk%elem_of_seqZ)%list_elem_of_fmap. lia. }
  case_bool_decide as Hcase.
  - assert (Pipeline.launches tr = []) as Hnil
      by (apply length_zero_iff_nil; lia).
    assert (f ∈ Pipeline.published tr) as Hin.
    { rewrite <- Hpub, Htakes. set_solver. }
    rewrite published_split, Hmerges, Hsorts, Hnil in Hin.
    unfold running in Hin. rewrite Hcase in Hin.
    change (seqZ 0 1) with [0] in Hin. set_solver.
  - assert (- chunks ∈ Worker.id <$> Pipeline.launches tr) as Hlast.
    { rewrite Hseq. apply list_elem_of_fmap. exists (chunks - 2).
      split; [lia|]. apply elem_of_seqZ. lia. }
    assert (- chunks ∈ Pipeline.published tr) as Hin.
    { rewrite published_split, Hmerges. set_solver. }
    rewrite <- Hpub, Htakes in Hin.
    apply elem_of_app in Hin as [Hin| ->%list_elem_of_singleton]; [|done].
    unfold Pipeline.inputs in Hin.
    apply list_elem_of_bind in Hin as (task & Hin & Htask).
    destruct (Hlt task Htask) as [H1 H2].
    assert (- chunks ≤ Worker.id task) by (apply Hids; set_solver).
    set_solver by lia.
Qed.

Lemma MergeBatchFiles_output_name_witness :
  ∃ s0,
    Pipeline.main_start [5; 3; 4; 1; 2] 2 ∅ = Some s0 ∧
    ∀ tr s, Pipeline.exec [5; 3; 4; 1; 2] s0 tr s →
      Worker.id <$> Pipeline.launches tr
      = (λ k, -2 - k)
          <$> seqZ 0 (Z.of_nat (length (Pipeline.launches tr))) ∧
      (∀ task, task ∈ Pipeline.launches tr →
         Worker.id task < Worker.filename1 task ∧
         Worker.id task < Worker.filename2 task) ∧
      (∀ f, Pipeline.main s = Pipeline.Finished f → f = -3).
Proof.
  refine (MergeBatchFiles_output_name [5; 3; 4; 1; 2] 2 ∅ _ _ _ _).
  - unfold INT_MAX. lia.
  - by vm_compute.
  - by vm_compute.
  - done.
Defined.





